(** * Brain-region intron filter: a shallow embedding of [app.py]

  The development follows the source top-down: Python string helpers,
  [parse_attributes], the annotation reader, the table objects and the
  heap they live in, [extract_introns], [overlaps],
  [introns_in_brain_regions], the coordinate merge and [main].

  Python [str] values are Rocq strings, one [ascii] per code point
  (code points below 256).  Integer columns are [Z]. *)

From Stdlib Require Import ZArith Ascii String Lia.
From stdpp Require Import base option list sorting strings gmap.

Local Open Scope Z_scope.

(** ** Exceptions and results *)

Inductive exn :=
| ValueError
| KeyError (key : string)
| TypeError.

Inductive result (A : Type) :=
| Ok (a : A)
| Raise (e : exn).
Arguments Ok {A} a.
Arguments Raise {A} e.

(** ** Python string methods *)

Module Py.

Definition space : ascii := " "%char.
Definition semicolon : ascii := ";"%char.
Definition dquote : ascii := "034"%char.

(** [str.isspace] on one code point below 256. *)
Definition isspace (c : ascii) : bool :=
  let n := N_of_ascii c in
  ((9 <=? n) && (n <=? 13) || (28 <=? n) && (n <=? 32)
   || (n =? 133) || (n =? 160))%N.

Definition is_char (c d : ascii) : bool := bool_decide (c = d).

Fixpoint lstrip_by (p : ascii -> bool) (s : string) : string :=
  match s with
  | EmptyString => EmptyString
  | String c s' => if p c then lstrip_by p s' else s
  end.

Fixpoint rstrip_by (p : ascii -> bool) (s : string) : string :=
  match s with
  | EmptyString => EmptyString
  | String c s' =>
      match rstrip_by p s' with
      | EmptyString => if p c then EmptyString else String c EmptyString
      | r => String c r
      end
  end.

Definition strip_by (p : ascii -> bool) (s : string) : string :=
  rstrip_by p (lstrip_by p s).

(** [s.strip()] *)
Definition strip (s : string) : string := strip_by isspace s.

(** [s.strip(c)] for a one-character argument. *)
Definition strip_char (c : ascii) (s : string) : string :=
  strip_by (is_char c) s.

(** [s.split(sep)] for a one-character separator: never empty. *)
Fixpoint split (sep : ascii) (s : string) : list string :=
  match s with
  | EmptyString => [EmptyString]
  | String c s' =>
      if is_char sep c then EmptyString :: split sep s'
      else match split sep s' with
           | hd :: tl => String c hd :: tl
           | [] => [String c EmptyString]
           end
  end.

(** [s.partition(sep)] when the separator occurs. *)
Fixpoint cut (sep : ascii) (s : string) : option (string * string) :=
  match s with
  | EmptyString => None
  | String c s' =>
      if is_char sep c then Some (EmptyString, s')
      else match cut sep s' with
           | Some (a, b) => Some (String c a, b)
           | None => None
           end
  end.

(** [s.split(sep, 1)] *)
Definition split1 (sep : ascii) (s : string) : list string :=
  match cut sep s with
  | Some (a, b) => [a; b]
  | None => [s]
  end.

Fixpoint chars (s : string) : list ascii :=
  match s with
  | EmptyString => []
  | String c s' => c :: chars s'
  end.

Definition nonempty (s : string) : bool :=
  match s with EmptyString => false | String _ _ => true end.





End Py.

(** ** [parse_attributes] *)

(** One turn of the loop body: a blank item is passed over, any other
    item must unpack into exactly a key and a value. *)
Definition parse_item (attrs : gmap string string) (item : string)
  : result (gmap string string) :=
  if Py.nonempty (Py.strip item) then
    match Py.split1 Py.space (Py.strip item) with
    | [key; val] => Ok (<[key := Py.strip_char Py.dquote val]> attrs)
    | _ => Raise ValueError
    end
  else Ok attrs.

Fixpoint parse_items (attrs : gmap string string) (items : list string)
  : result (gmap string string) :=
  match items with
  | [] => Ok attrs
  | item :: rest =>
      match parse_item attrs item with
      | Ok attrs' => parse_items attrs' rest
      | Raise e => Raise e
      end
  end.

Definition parse_attributes (attr_str : string)
  : result (gmap string string) :=
  parse_items ∅ (Py.split Py.semicolon (Py.strip attr_str)).

(** The key and value a well-formed item contributes, for stating what
    the parser returns. *)
Definition item_pair (item : string) : option (string * string) :=
  match Py.cut Py.space (Py.strip item) with
  | Some (key, val) => Some (key, Py.strip_char Py.dquote val)
  | None => None
  end.

(** ** [read_gtf]

    The reader hands the text to [pd.read_csv] with [sep] a tab,
    [comment] a hash sign and nine column names.  What is modelled of
    that call: the stream is cut into lines, comment lines and blank
    lines are passed over, the rest of a line after a hash sign is not
    parsed, and a line with fewer fields than names is completed with
    the missing value.  Cells hold the field text as tokenized; the type
    inference that follows picks a type for each column and cannot
    fail.  Quoted fields and carriage returns are not modelled. *)




Definition cols : list string :=
  ["seqname"; "source"; "feature"; "start"; "end";
   "score"; "strand"; "frame"; "attribute"].









(** ** Tables

    The rows of the typed tables below are what the pipeline works on
    once the columns [start] and [end] have been read as integers. *)

Module Feature.
Record t := mk {
  seqname : string;
  source : string;
  feature : string;
  start : Z;
  end_ : Z;
  score : string;
  strand : string;
  frame : string;
  attribute : string
}.
End Feature.

Module Intron.
Record t := mk {
  transcript_id : string;
  seqname : string;
  start : Z;
  end_ : Z;
  strand : string
}.
Definition keys : list string :=
  ["transcript_id"; "seqname"; "start"; "end"; "strand"].
End Intron.

Module Region.
Record t := mk {
  seqname : string;
  source : string;
  start : Z;
  end_ : Z
}.
End Region.

Module Matched.
Record t := mk {
  intron : Intron.t;
  brain_region_source : string;
  brain_region_start : Z;
  brain_region_end : Z
}.
Definition keys : list string :=
  Intron.keys ++
  ["brain_region_source"; "brain_region_start"; "brain_region_end"].
End Matched.

Module Known.
Record t := mk {
  seqname : string;
  start : Z;
  end_ : Z;
  (** the cells of the other columns *)
  extra : list string
}.
End Known.

(** A table built by [pd.DataFrame(records)] or read with a header:
    its column labels and its rows. *)
Record DataFrame (A : Type) := {
  columns : list string;
  records : list A
}.
Arguments columns {A} d.
Arguments records {A} d.

(** [pd.DataFrame(records)] for a list of dicts that all have the keys
    [keys]: an empty list gives a table with no columns at all. *)
Definition from_records {A : Type} (keys : list string) (rs : list A)
  : DataFrame A :=
  {| columns := match rs with [] => [] | _ :: _ => keys end;
     records := rs |}.

(** An annotation table: the nine columns of [cols], and the two
    columns [extract_introns] adds, once they are there. *)
Record GtfFrame := {
  rows : list Feature.t;
  attributes : option (list (gmap string string));
  transcript_id : option (list string)
}.

Definition gtf_columns (f : GtfFrame) : list string :=
  cols
  ++ match attributes f with Some _ => ["attributes"] | None => [] end
  ++ match transcript_id f with Some _ => ["transcript_id"] | None => [] end.

(** ** The heap of table objects

    Every table is an object; a function receives and returns
    references, and assigning a column writes to the object the caller
    still holds. *)

Inductive obj :=
| GtfObj (f : GtfFrame)
| RegionsObj (r : list Region.t)
| IntronsObj (t : DataFrame Intron.t)
| MatchedObj (t : DataFrame Matched.t)
| KnownObj (t : DataFrame Known.t)
| MergedObj (t : DataFrame (Known.t * Matched.t)).

Abbreviation loc := nat.
Abbreviation heap := (list obj).

Definition M (A : Type) : Type := heap -> heap * result A.

Definition ret {A : Type} (a : A) : M A := fun h => (h, Ok a).

Definition raise {A : Type} (e : exn) : M A := fun h => (h, Raise e).

Definition bind {A B : Type} (m : M A) (k : A -> M B) : M B :=
  fun h =>
    match m h with
    | (h', Ok a) => k a h'
    | (h', Raise e) => (h', Raise e)
    end.

Notation "'let*' x ':=' m 'in' k" := (bind m (fun x => k))
  (at level 10, x name, m at level 100, k at level 200).

Definition lift {A : Type} (r : result A) : M A := fun h => (h, r).

Definition alloc (o : obj) : M loc := fun h => (h ++ [o], Ok (length h)).

Definition load (l : loc) : M obj :=
  fun h =>
    match h !! l with
    | Some o => (h, Ok o)
    | None => (h, Raise TypeError)
    end.

Definition store (l : loc) (o : obj) : M unit :=
  fun h => (<[l := o]> h, Ok tt).

Definition load_gtf (l : loc) : M GtfFrame :=
  let* o := load l in
  match o with GtfObj f => ret f | _ => raise TypeError end.

Definition load_regions (l : loc) : M (list Region.t) :=
  let* o := load l in
  match o with RegionsObj r => ret r | _ => raise TypeError end.

Definition load_introns (l : loc) : M (DataFrame Intron.t) :=
  let* o := load l in
  match o with IntronsObj t => ret t | _ => raise TypeError end.

Definition load_matched (l : loc) : M (DataFrame Matched.t) :=
  let* o := load l in
  match o with MatchedObj t => ret t | _ => raise TypeError end.

Definition load_known (l : loc) : M (DataFrame Known.t) :=
  let* o := load l in
  match o with KnownObj t => ret t | _ => raise TypeError end.

Definition load_merged (l : loc) : M (DataFrame (Known.t * Matched.t)) :=
  let* o := load l in
  match o with MergedObj t => ret t | _ => raise TypeError end.

(** ** [extract_introns] *)

(** [Series.apply(f)] for an [f] that may raise: element by element, the
    first exception ends the call. *)
Fixpoint apply {A B : Type} (f : A -> result B) (l : list A)
  : result (list B) :=
  match l with
  | [] => Ok []
  | a :: l' =>
      match f a with
      | Raise e => Raise e
      | Ok b =>
          match apply f l' with
          | Raise e => Raise e
          | Ok bs => Ok (b :: bs)
          end
      end
  end.

(** [d.get("transcript_id", "unknown")] *)
Definition get_transcript_id (d : gmap string string) : string :=
  default "unknown" (d !! "transcript_id").

(** The keys of [exons.groupby("transcript_id")]: the distinct values
    of the column, sorted. *)
Definition group_keys (keyed : list (string * Feature.t)) : list string :=
  merge_sort String.le (remove_dups (fst <$> keyed)).

(** The rows of one group: the rows with that key, in the order of the
    table. *)
Definition transcript_group (tid : string) (keyed : list (string * Feature.t))
  : list Feature.t :=
  snd <$> List.filter (fun kr => bool_decide (fst kr = tid)) keyed.

Definition groupby (keyed : list (string * Feature.t))
  : list (string * list Feature.t) :=
  (fun tid => (tid, transcript_group tid keyed)) <$> group_keys keyed.

(** [group.sort_values("start")].  Rows with equal [start] keep their
    order here; the library's default sort does not promise an order
    for them. *)
Fixpoint insert_by_start (e : Feature.t) (l : list Feature.t)
  : list Feature.t :=
  match l with
  | [] => [e]
  | x :: l' =>
      if Feature.start e <=? Feature.start x then e :: l
      else x :: insert_by_start e l'
  end.

Definition sort_values_start (group : list Feature.t) : list Feature.t :=
  foldr insert_by_start [] group.

(** One element of [zip(group.start, group.end)]. *)
Definition coords_of (e : Feature.t) : Z * Z :=
  (Feature.start e, Feature.end_ e).

(** The body of the inner loop at index [i]; inside
    [range(len(coords) - 1)] all three lookups succeed. *)
Definition intron_step (tid : string) (group : list Feature.t)
    (coords : list (Z * Z)) (intron_records : list Intron.t) (i : nat)
  : list Intron.t :=
  match coords !! i, coords !! S i, group !! 0%nat with
  | Some ci, Some cj, Some first =>
      let intron_start := snd ci + 1 in
      let intron_end := fst cj - 1 in
      if intron_start <=? intron_end then
        intron_records ++
        [ {| Intron.transcript_id := tid;
             Intron.seqname := Feature.seqname first;
             Intron.start := intron_start;
             Intron.end_ := intron_end;
             Intron.strand := Feature.strand first |} ]
      else intron_records
  | _, _, _ => intron_records
  end.

(** The body of the outer loop for one group. *)
Definition group_step (intron_records : list Intron.t)
    (g : string * list Feature.t) : list Intron.t :=
  let tid := fst g in
  let group := sort_values_start (snd g) in
  let coords := coords_of <$> group in
  fold_left (intron_step tid group coords)
    (seq 0 (length coords - 1)) intron_records.

Definition intron_records (keyed : list (string * Feature.t))
  : list Intron.t :=
  fold_left group_step (groupby keyed) [].

Definition set_attributes (f : GtfFrame) (c : list (gmap string string))
  : GtfFrame :=
  {| rows := rows f; attributes := Some c; transcript_id := transcript_id f |}.

Definition set_transcript_id (f : GtfFrame) (c : list string) : GtfFrame :=
  {| rows := rows f; attributes := attributes f; transcript_id := Some c |}.

(** The two column assignments write to the table [exons] refers to;
    the result is a new table. *)
Definition extract_introns (exons : loc) : M loc :=
  let* f := load_gtf exons in
  (* exons["attributes"] = exons["attribute"].apply(parse_attributes) *)
  let* attrs := lift (apply parse_attributes (Feature.attribute <$> rows f)) in
  let* _ := store exons (GtfObj (set_attributes f attrs)) in
  (* exons["transcript_id"] = exons["attributes"].apply(...) *)
  let* f := load_gtf exons in
  let tids := get_transcript_id <$> default [] (attributes f) in
  let* _ := store exons (GtfObj (set_transcript_id f tids)) in
  (* the loops, then pd.DataFrame(intron_records) *)
  let* f := load_gtf exons in
  alloc (IntronsObj
           (from_records Intron.keys
              (intron_records (zip (default [] (transcript_id f)) (rows f))))).

(** ** [overlaps] and [introns_in_brain_regions] *)

Definition overlaps (a_start a_end b_start b_end : Z) : bool :=
  Z.max a_start b_start <=? Z.min a_end b_end.

(** The boolean row mask of the inner selection. *)
Definition matching (intron : Intron.t) (brain_regions : list Region.t)
  : list Region.t :=
  List.filter
    (fun row =>
       bool_decide (Region.seqname row = Intron.seqname intron)
       && overlaps (Intron.start intron) (Intron.end_ intron)
                   (Region.start row) (Region.end_ row))
    brain_regions.

Definition region_step (intron : Intron.t) (result : list Matched.t)
    (region : Region.t) : list Matched.t :=
  result ++
  [ {| Matched.intron := intron;
       Matched.brain_region_source := Region.source region;
       Matched.brain_region_start := Region.start region;
       Matched.brain_region_end := Region.end_ region |} ].

Definition match_step (brain_regions : list Region.t)
    (result : list Matched.t) (intron : Intron.t) : list Matched.t :=
  fold_left (region_step intron) (matching intron brain_regions) result.

Definition matched_records (introns : list Intron.t)
    (brain_regions : list Region.t) : list Matched.t :=
  fold_left (match_step brain_regions) introns [].

Definition introns_in_brain_regions (introns brain_regions : loc) : M loc :=
  let* i := load_introns introns in
  let* r := load_regions brain_regions in
  alloc (MatchedObj (from_records Matched.keys (matched_records (records i) r))).

(** ** The coordinate merge and [main] *)

(** [df[mask]]: the rows where the mask holds, as a new table. *)
Definition by_mask {A : Type} (mask : list bool) (l : list A) : list A :=
  fst <$> List.filter snd (zip l mask).

Definition select_rows (p : Feature.t -> bool) (f : GtfFrame) : GtfFrame :=
  let mask := p <$> rows f in
  {| rows := by_mask mask (rows f);
     attributes := by_mask mask <$> attributes f;
     transcript_id := by_mask mask <$> transcript_id f |}.

Definition select (p : Feature.t -> bool) (table : loc) : M loc :=
  let* f := load_gtf table in
  alloc (GtfObj (select_rows p f)).

(** [df[["seqname", "source", "start", "end"]]] *)
Definition region_of (e : Feature.t) : Region.t :=
  {| Region.seqname := Feature.seqname e;
     Region.source := Feature.source e;
     Region.start := Feature.start e;
     Region.end_ := Feature.end_ e |}.

Definition project_regions (table : loc) : M loc :=
  let* f := load_gtf table in
  alloc (RegionsObj (region_of <$> rows f)).

Definition on_ : list string := ["seqname"; "start"; "end"].

Definition same_key (k : Known.t) (m : Matched.t) : bool :=
  bool_decide (Known.seqname k = Intron.seqname (Matched.intron m))
  && (Known.start k =? Intron.start (Matched.intron m))
  && (Known.end_ k =? Intron.end_ (Matched.intron m)).

(** The rows of an inner merge, in the order of the left keys. *)
Definition joined (left : list Known.t) (right : list Matched.t)
  : list (Known.t * Matched.t) :=
  k ← left; (fun m => (k, m)) <$> List.filter (same_key k) right.

(** The labels of the merged table: the left labels, then the right
    labels that are not keys; a label on both sides gets a suffix. *)
Definition merged_columns (left right : list string) : list string :=
  ((fun c =>
      if bool_decide (c ∈ on_) then c
      else if bool_decide (c ∈ right) then c +:+ "_x" else c) <$> left)
  ++ ((fun c => if bool_decide (c ∈ left) then c +:+ "_y" else c)
        <$> List.filter (fun c => negb (bool_decide (c ∈ on_))) right).

(** [pd.merge(left, right, on=on_, how="inner")]: a key that is not a
    column label on both sides is a [KeyError]. *)
Definition merge (left : DataFrame Known.t) (right : DataFrame Matched.t)
  : result (DataFrame (Known.t * Matched.t)) :=
  match
    List.find
      (fun key =>
         negb (bool_decide (key ∈ columns left)
               && bool_decide (key ∈ columns right))) on_
  with
  | Some key => Raise (KeyError key)
  | None =>
      Ok {| columns := merged_columns (columns left) (columns right);
            records := joined (records left) (records right) |}
  end.

Definition pd_merge (left right : loc) : M loc :=
  let* l := load_known left in
  let* r := load_matched right in
  let* t := lift (merge l r) in
  alloc (MergedObj t).

(** A table as a reader returns it. *)
Definition annotation (rs : list Feature.t) : GtfFrame :=
  {| rows := rs; attributes := None; transcript_id := None |}.

Definition is_exon (e : Feature.t) : bool :=
  bool_decide (Feature.feature e = "exon").

(** The processing block of [main], from the three tables the readers
    return to the table that is shown and offered for download.  The
    first, fourth and eighth step stand for the three reads. *)
Definition main (gtf_table brain_gtf_table : list Feature.t)
    (known_introns_table : DataFrame Known.t)
  : M (DataFrame (Known.t * Matched.t)) :=
  let* gtf := alloc (GtfObj (annotation gtf_table)) in
  let* exons := select is_exon gtf in
  let* introns := extract_introns exons in
  let* brain_gtf := alloc (GtfObj (annotation brain_gtf_table)) in
  let* not_exon := select (fun e => negb (is_exon e)) brain_gtf in
  let* brain_regions := project_regions not_exon in
  let* introns_with_brain := introns_in_brain_regions introns brain_regions in
  let* known_introns := alloc (KnownObj known_introns_table) in
  let* filtered := pd_merge known_introns introns_with_brain in
  load_merged filtered.

(** ** Sample data *)

Definition quoted (s : string) : string :=
  String Py.dquote (s +:+ String Py.dquote EmptyString).

Definition exon (seqname : string) (start end_ : Z) (strand tid : string)
  : Feature.t :=
  {| Feature.seqname := seqname; Feature.source := "src";
     Feature.feature := "exon"; Feature.start := start;
     Feature.end_ := end_; Feature.score := "."; Feature.strand := strand;
     Feature.frame := ".";
     Feature.attribute :=
       "gene_id " +:+ quoted "G" +:+ "; transcript_id " +:+ quoted tid +:+ ";" |}.

Definition region (seqname source : string) (start end_ : Z) : Feature.t :=
  {| Feature.seqname := seqname; Feature.source := source;
     Feature.feature := "region"; Feature.start := start;
     Feature.end_ := end_; Feature.score := "."; Feature.strand := ".";
     Feature.frame := "."; Feature.attribute := EmptyString |}.


Definition three_exons : list Feature.t :=
  [exon "chr1" 1 100 "+" "T1"; exon "chr1" 201 300 "+" "T1";
   exon "chr1" 401 500 "+" "T1"].


Definition touching_exons : list Feature.t :=
  [exon "chr1" 1 100 "+" "T1"; exon "chr1" 101 200 "+" "T1"].


Definition known_one : DataFrame Known.t :=
  {| columns := ["seqname"; "start"; "end"; "label"];
     records := [ {| Known.seqname := "chr1"; Known.start := 101;
                     Known.end_ := 200; Known.extra := ["k1"] |} ] |}.


(** ** Reference definitions

    What the loops compute, written the way the specification says it;
    the theorems below compare the loops with these. *)

(** The candidate intron between two neighbouring exons. *)
Definition candidate (tid : string) (first prev next : Feature.t)
  : Intron.t :=
  {| Intron.transcript_id := tid;
     Intron.seqname := Feature.seqname first;
     Intron.start := Feature.end_ prev + 1;
     Intron.end_ := Feature.start next - 1;
     Intron.strand := Feature.strand first |}.

(** One candidate per adjacent pair, kept when [end >= start]. *)
Fixpoint adjacent_introns (tid : string) (first : Feature.t)
    (sorted : list Feature.t) : list Intron.t :=
  match sorted with
  | [] => []
  | prev :: rest =>
      match rest with
      | [] => []
      | next :: _ =>
          let c := candidate tid first prev next in
          (if Intron.start c <=? Intron.end_ c then [c] else [])
          ++ adjacent_introns tid first rest
      end
  end.

(** The introns of one transcript group: its exons sorted by start,
    then one candidate per adjacent pair. *)
Definition group_introns (tid : string) (group : list Feature.t)
  : list Intron.t :=
  match sort_values_start group with
  | [] => []
  | first :: _ => adjacent_introns tid first (sort_values_start group)
  end.

Definition start_le (a b : Feature.t) : Prop :=
  Feature.start a <= Feature.start b.


(** A region and an intron match: same sequence, closed intervals that
    meet. *)
Definition region_matches (intron : Intron.t) (region : Region.t) : Prop :=
  Region.seqname region = Intron.seqname intron
  /\ Z.max (Intron.start intron) (Region.start region)
     <= Z.min (Intron.end_ intron) (Region.end_ region).

Definition matched_row (intron : Intron.t) (region : Region.t) : Matched.t :=
  {| Matched.intron := intron;
     Matched.brain_region_source := Region.source region;
     Matched.brain_region_start := Region.start region;
     Matched.brain_region_end := Region.end_ region |}.

#[global] Instance region_matches_dec intron region
  : Decision (region_matches intron region).
Proof. unfold region_matches. apply _. Defined.


(** The pipeline as a function of its three inputs and of nothing
    else. *)
Definition pipeline (gtf_table brain_gtf_table : list Feature.t)
    (known_introns_table : DataFrame Known.t)
  : result (DataFrame (Known.t * Matched.t)) :=
  let exons := List.filter is_exon gtf_table in
  match apply parse_attributes (Feature.attribute <$> exons) with
  | Raise e => Raise e
  | Ok attrs =>
      let introns :=
        intron_records (zip (get_transcript_id <$> attrs) exons) in
      let brain_regions :=
        region_of
        <$> List.filter (fun e => negb (is_exon e)) brain_gtf_table in
      merge known_introns_table
        (from_records Matched.keys (matched_records introns brain_regions))
  end.

(** An item the parser rejects: not blank, and no space to split at. *)
Definition malformed (item : string) : Prop :=
  Py.strip item <> EmptyString /\ Py.space ∉ Py.chars item.

(** * Properties *)

(** ** Strings *)

Lemma is_char_true c d : Py.is_char c d = true <-> c = d.
Proof. unfold Py.is_char. apply bool_decide_eq_true. Qed.

Lemma is_char_false c d : Py.is_char c d = false <-> c <> d.
Proof. unfold Py.is_char. apply bool_decide_eq_false. Qed.

Lemma chars_lstrip_by p s c :
  c ∈ Py.chars (Py.lstrip_by p s) -> c ∈ Py.chars s.
Proof.
  induction s as [|d s IH]; simpl; [done|].
  destruct (p d); simpl; [|done].
  intros H. right. by apply IH.
Qed.

Lemma chars_rstrip_by p s c :
  c ∈ Py.chars (Py.rstrip_by p s) -> c ∈ Py.chars s.
Proof.
  induction s as [|d s IH]; simpl; [done|].
  destruct (Py.rstrip_by p s) as [|e r] eqn:E.
  - destruct (p d); simpl; [by intros ?%elem_of_nil|].
    intros [->|?%elem_of_nil]%elem_of_cons; [left|done].
  - simpl in *. intros [->|H]%elem_of_cons; [left|right; by apply IH].
Qed.

Lemma chars_strip_by p s c :
  c ∈ Py.chars (Py.strip_by p s) -> c ∈ Py.chars s.
Proof. intros H. by eapply chars_lstrip_by, chars_rstrip_by. Qed.

Lemma cut_None sep s : sep ∉ Py.chars s -> Py.cut sep s = None.
Proof.
  induction s as [|d s IH]; simpl; [done|].
  intros H. apply not_elem_of_cons in H as [Hd Hs].
  destruct (Py.is_char sep d) eqn:E.
  - by apply is_char_true in E.
  - by rewrite IH.
Qed.

Lemma cut_Some sep s a b :
  Py.cut sep s = Some (a, b) -> sep ∈ Py.chars s.
Proof.
  revert a. induction s as [|d s IH]; simpl; [done|]. intros a.
  destruct (Py.is_char sep d) eqn:E.
  - apply is_char_true in E as ->. left.
  - destruct (Py.cut sep s) as [[a' b']|]; [|done].
    intros [= <- <-]. right. by eapply IH.
Qed.

Lemma nonempty_true s : Py.nonempty s = true <-> s <> EmptyString.
Proof. by destruct s. Qed.

(** ** [parse_attributes] *)

Lemma parse_item_exn attrs item e :
  parse_item attrs item = Raise e -> e = ValueError.
Proof.
  unfold parse_item, Py.split1.
  destruct (Py.nonempty _); [|done].
  by destruct (Py.cut _ _) as [[? ?]|]; intros [= <-].
Qed.

Lemma parse_item_malformed attrs item :
  malformed item -> parse_item attrs item = Raise ValueError.
Proof.
  intros [Hne Hsp]. unfold parse_item, Py.split1.
  apply nonempty_true in Hne as ->.
  rewrite cut_None; [done|].
  intros H. apply Hsp. by eapply chars_strip_by.
Qed.

Lemma parse_items_malformed items attrs item :
  item ∈ items -> malformed item ->
  parse_items attrs items = Raise ValueError.
Proof.
  intros Hin Hbad. revert attrs.
  induction items as [|other items IH]; intros attrs;
    [by apply elem_of_nil in Hin|].
  simpl. apply elem_of_cons in Hin as [<-|Hin].
  - by rewrite parse_item_malformed.
  - destruct (parse_item attrs other) as [attrs'|e] eqn:E; [by apply IH|].
    by apply parse_item_exn in E as ->.
Qed.

(** Splitting a stripped string: only the first and the last piece
    change, and they change by stripping. *)

Section SplitStrip.

Variable p : ascii -> bool.
Variable sep : ascii.
Hypothesis p_sep : p sep = false.

Lemma split_cons_sep s :
  Py.split sep (String sep s) = EmptyString :: Py.split sep s.
Proof. simpl. by rewrite (proj2 (is_char_true sep sep)). Qed.

Lemma split_cons_other c s hd tl :
  c <> sep -> Py.split sep s = hd :: tl ->
  Py.split sep (String c s) = String c hd :: tl.
Proof.
  intros Hc Hs. simpl. rewrite (proj2 (is_char_false sep c)); [|done].
  by rewrite Hs.
Qed.

Lemma split_nonnil s : Py.split sep s <> [].
Proof.
  destruct s as [|c s]; simpl; [done|].
  destruct (Py.is_char sep c); [done|]. by destruct (Py.split sep s).
Qed.

Lemma split_single s x : Py.split sep s = [x] -> x = s.
Proof.
  revert x. induction s as [|c s IH]; intros x; simpl; [by intros [= <-]|].
  destruct (Py.is_char sep c).
  - intros [= _ H]. by apply split_nonnil in H.
  - destruct (Py.split sep s) as [|hd tl] eqn:E; [by apply split_nonnil in E|].
    intros [= <- ->]. f_equal. by apply IH.
Qed.

Lemma rstrip_by_cons c s :
  Py.rstrip_by p (String c s)
  = match Py.rstrip_by p s with
    | EmptyString => if p c then EmptyString else String c EmptyString
    | r => String c r
    end.
Proof. done. Qed.

Lemma rstrip_by_keep c s :
  p c = false -> Py.rstrip_by p (String c s) = String c (Py.rstrip_by p s).
Proof. intros Hc. rewrite rstrip_by_cons, Hc. by destruct (Py.rstrip_by p s). Qed.

Lemma lstrip_rstrip s :
  Py.lstrip_by p (Py.rstrip_by p s) = Py.rstrip_by p (Py.lstrip_by p s).
Proof.
  induction s as [|c s IH]; [done|].
  destruct (p c) eqn:Hc.
  - simpl Py.lstrip_by at 2. rewrite Hc, <- IH, rstrip_by_cons, Hc.
    destruct (Py.rstrip_by p s); [done|]. simpl. by rewrite Hc.
  - simpl Py.lstrip_by at 2. rewrite Hc, rstrip_by_keep by done.
    simpl. by rewrite Hc.
Qed.

Lemma lstrip_lstrip s :
  Py.lstrip_by p (Py.lstrip_by p s) = Py.lstrip_by p s.
Proof.
  induction s as [|c s IH]; [done|]. simpl.
  destruct (p c) eqn:Hc; [done|]. simpl. by rewrite Hc.
Qed.

Lemma rstrip_rstrip s :
  Py.rstrip_by p (Py.rstrip_by p s) = Py.rstrip_by p s.
Proof.
  induction s as [|c s IH]; [done|]. rewrite rstrip_by_cons.
  destruct (Py.rstrip_by p s) as [|d r] eqn:E.
  - destruct (p c) eqn:Hc; [done|]. simpl. by rewrite Hc.
  - rewrite rstrip_by_cons, IH. done.
Qed.

Lemma strip_lstrip s :
  Py.strip_by p (Py.lstrip_by p s) = Py.strip_by p s.
Proof. unfold Py.strip_by. by rewrite lstrip_lstrip. Qed.

Lemma strip_rstrip s :
  Py.strip_by p (Py.rstrip_by p s) = Py.strip_by p s.
Proof. unfold Py.strip_by. by rewrite lstrip_rstrip, rstrip_rstrip. Qed.

Lemma split_lstrip s :
  exists hd tl,
    Py.split sep s = hd :: tl
    /\ Py.split sep (Py.lstrip_by p s) = Py.lstrip_by p hd :: tl.
Proof.
  induction s as [|c s (hd & tl & Hs & IH)].
  - by exists EmptyString, [].
  - destruct (decide (c = sep)) as [->|Hc].
    + exists EmptyString, (Py.split sep s). rewrite split_cons_sep.
      split; [done|]. simpl. by rewrite p_sep, split_cons_sep.
    + exists (String c hd), tl. rewrite (split_cons_other c s hd tl) by done.
      split; [done|]. simpl. destruct (p c); [done|].
      by rewrite (split_cons_other c s hd tl).
Qed.

Lemma split_rstrip s :
  exists init last,
    Py.split sep s = init ++ [last]
    /\ Py.split sep (Py.rstrip_by p s) = init ++ [Py.rstrip_by p last].
Proof.
  induction s as [|c s (init & last & Hs & IH)].
  - by exists [], EmptyString.
  - destruct (decide (c = sep)) as [->|Hc].
    + exists (EmptyString :: init), last.
      rewrite rstrip_by_keep, !split_cons_sep, Hs, IH by done. done.
    + destruct init as [|h t]; simpl in Hs, IH.
      * exists [], (String c last). cbn [app].
        rewrite (split_cons_other c s last []) by done. split; [done|].
        rewrite !rstrip_by_cons.
        assert (Py.rstrip_by p s = Py.rstrip_by p last) as Hr
          by (symmetry; by apply split_single).
        rewrite Hr. destruct (Py.rstrip_by p last) as [|d r] eqn:E.
        -- destruct (p c); [done|].
           simpl. by rewrite (proj2 (is_char_false sep c)).
        -- rewrite Hr in IH.
           by rewrite (split_cons_other c _ _ [] Hc IH).
      * exists (String c h :: t), last.
        rewrite (split_cons_other c s h (t ++ [last])) by done.
        split; [done|]. rewrite rstrip_by_cons.
        destruct (Py.rstrip_by p s) as [|d r] eqn:E.
        -- simpl in IH. injection IH as _ IH. by destruct t.
        -- by rewrite (split_cons_other c _ h (t ++ [Py.rstrip_by p last])).
Qed.

Lemma split_strip_elem s seg :
  seg ∈ Py.split sep s ->
  exists seg',
    seg' ∈ Py.split sep (Py.strip_by p s)
    /\ Py.strip_by p seg' = Py.strip_by p seg
    /\ forall c, c ∈ Py.chars seg' -> c ∈ Py.chars seg.
Proof.
  intros Hin.
  destruct (split_lstrip s) as (hd & tl & Hs & Hl).
  assert (exists seg1, seg1 ∈ Py.split sep (Py.lstrip_by p s)
            /\ Py.strip_by p seg1 = Py.strip_by p seg
            /\ forall c, c ∈ Py.chars seg1 -> c ∈ Py.chars seg)
    as (seg1 & Hin1 & Hs1 & Hc1).
  { rewrite Hs in Hin. rewrite Hl.
    apply elem_of_cons in Hin as [->|Hin].
    - exists (Py.lstrip_by p hd). split; [left|].
      split; [apply strip_lstrip|]. intros c. apply chars_lstrip_by.
    - exists seg. split; [by right|done]. }
  destruct (split_rstrip (Py.lstrip_by p s)) as (init & last & Hi & Hr).
  unfold Py.strip_by at 1. rewrite Hr. rewrite Hi in Hin1.
  apply elem_of_app in Hin1 as [Hin1|Hin1].
  - exists seg1. split; [apply elem_of_app; by left|done].
  - apply list_elem_of_singleton in Hin1 as ->.
    exists (Py.rstrip_by p last).
    split; [apply elem_of_app; right; apply list_elem_of_singleton; done|].
    split; [by rewrite strip_rstrip|].
    intros c Hc. by apply Hc1, (chars_rstrip_by p).
Qed.

End SplitStrip.

Lemma parse_item_Ok attrs item attrs' :
  parse_item attrs item = Ok attrs' ->
  attrs' = match item_pair item with
           | Some (key, value) => <[key := value]> attrs
           | None => attrs
           end.
Proof.
  unfold parse_item, item_pair, Py.split1.
  destruct (Py.strip item) as [|c s] eqn:E; simpl Py.nonempty; cbv iota.
  - by intros [= <-].
  - destruct (Py.cut Py.space (String c s)) as [[key val]|]; [|done].
    by intros [= <-].
Qed.

Lemma parse_items_keep items attrs attrs' key :
  parse_items attrs items = Ok attrs' ->
  (forall item value, item ∈ items -> item_pair item <> Some (key, value)) ->
  attrs' !! key = attrs !! key.
Proof.
  revert attrs. induction items as [|item items IH]; intros attrs; simpl.
  - by intros [= <-].
  - destruct (parse_item attrs item) as [attrs1|] eqn:E; [|done].
    intros Hrest Hno. rewrite (IH attrs1 Hrest).
    + apply parse_item_Ok in E as ->.
      destruct (item_pair item) as [[k v]|] eqn:Ep; [|done].
      apply lookup_insert_ne. intros ->. eapply Hno; [left|done].
    + intros item' value Hin. apply Hno. by right.
Qed.

Lemma parse_items_last items attrs attrs' (i : nat) item key value :
  parse_items attrs items = Ok attrs' ->
  items !! i = Some item ->
  item_pair item = Some (key, value) ->
  (forall (j : nat) item' value',
     (i < j)%nat -> items !! j = Some item' ->
     item_pair item' <> Some (key, value')) ->
  attrs' !! key = Some value.
Proof.
  revert attrs i. induction items as [|first items IH]; intros attrs i; simpl.
  - done.
  - destruct (parse_item attrs first) as [attrs1|] eqn:E; [|done].
    intros Hrest Hi Hp Hlast. destruct i as [|i]; simpl in Hi.
    + injection Hi as ->. apply parse_item_Ok in E. rewrite Hp in E.
      rewrite (parse_items_keep items attrs1 attrs' key Hrest).
      * subst attrs1. apply lookup_insert_eq.
      * intros item' value' [j Hj]%list_elem_of_lookup.
        apply (Hlast (S j)); [lia|done].
    + apply (IH attrs1 i Hrest Hi Hp).
      intros j item' value' Hlt Hj. apply (Hlast (S j)); [lia|done].
Qed.

Lemma parse_items_well_formed items attrs :
  Forall (fun item => Py.strip item = EmptyString \/ is_Some (item_pair item))
    items ->
  exists attrs', parse_items attrs items = Ok attrs'.
Proof.
  intros H. revert attrs.
  induction H as [|item items Hitem _ IH]; intros attrs; simpl; [eauto|].
  assert (exists attrs1, parse_item attrs item = Ok attrs1) as [attrs1 ->];
    [|apply IH].
  unfold parse_item, Py.split1. destruct Hitem as [->|[[k v] Hp]]; [eauto|].
  unfold item_pair in Hp.
  destruct (Py.cut Py.space (Py.strip item)) as [[a b]|] eqn:E; [|done].
  destruct (Py.nonempty _); eauto.
Qed.

(** C7: an attribute string with a segment (a piece between semicolons,
    of the string as given or of the stripped string the loop runs over)
    that is not blank and has no space makes [parse_attributes] raise:
    the result is the exception, never a mapping, whether partial or
    with the segment left out. *)
Theorem parse_attributes_raises_on_malformed attr_str item :
  item ∈ Py.split Py.semicolon attr_str
  \/ item ∈ Py.split Py.semicolon (Py.strip attr_str) ->
  malformed item ->
  parse_attributes attr_str = Raise ValueError.
Proof.
  intros [Hin|Hin] Hbad.
  - destruct (split_strip_elem Py.isspace Py.semicolon eq_refl attr_str item Hin)
      as (item' & Hin' & Hs & Hc).
    apply (parse_items_malformed _ _ item' Hin').
    destruct Hbad as [Hne Hsp]. split.
    + unfold Py.strip. by rewrite Hs.
    + intros H. by apply Hsp, Hc.
  - by apply (parse_items_malformed _ _ item).
Qed.

Lemma parse_attributes_raises_on_malformed_witness :
  parse_attributes ("gene_id " +:+ quoted "G" +:+ ";bad") = Raise ValueError.
Proof.
  apply (parse_attributes_raises_on_malformed _ "bad").
  - left. vm_compute. right. left.
  - split; [by vm_compute|].
    vm_compute. intros H. repeat (apply elem_of_cons in H as [H|H]; [done|]).
    by apply elem_of_nil in H.
Defined.

(** C10: when a key occurs in several well-formed segments, the mapping
    [parse_attributes] returns binds it to the value of the last of
    them, with the double quotes around the value stripped. *)
Theorem parse_attributes_last_wins attr_str attrs (i : nat) item key val :
  parse_attributes attr_str = Ok attrs ->
  Py.split Py.semicolon (Py.strip attr_str) !! i = Some item ->
  Py.cut Py.space (Py.strip item) = Some (key, val) ->
  (forall (j : nat) item' val',
     (i < j)%nat ->
     Py.split Py.semicolon (Py.strip attr_str) !! j = Some item' ->
     Py.cut Py.space (Py.strip item') <> Some (key, val')) ->
  attrs !! key = Some (Py.strip_char Py.dquote val).
Proof.
  intros Hparse Hi Hcut Hlast.
  apply (parse_items_last _ _ _ i item key _ Hparse Hi).
  - unfold item_pair. by rewrite Hcut.
  - intros j item' value' Hlt Hj. unfold item_pair.
    destruct (Py.cut Py.space (Py.strip item')) as [[k v]|] eqn:E; [|done].
    intros [= -> _]. by eapply Hlast.
Qed.

Lemma parse_attributes_last_wins_witness :
  exists attrs,
    parse_attributes ("gene_id " +:+ quoted "A" +:+ "; gene_id " +:+ quoted "B")
    = Ok attrs
    /\ attrs !! "gene_id" = Some "B".
Proof.
  eexists. split; [vm_compute; reflexivity|].
  apply (parse_attributes_last_wins
           ("gene_id " +:+ quoted "A" +:+ "; gene_id " +:+ quoted "B") _ 1
           (" gene_id " +:+ quoted "B") "gene_id" (quoted "B")).
  - vm_compute. reflexivity.
  - reflexivity.
  - reflexivity.
  - intros [|[|j]] item' val' Hlt Hj; [lia|lia|].
    vm_compute in Hj. discriminate.
Defined.

(** ** [read_gtf] *)








(** ** [overlaps] and [introns_in_brain_regions] *)

Lemma overlaps_max_min a_start a_end b_start b_end :
  overlaps a_start a_end b_start b_end = true
  <-> Z.max a_start b_start <= Z.min a_end b_end.
Proof. unfold overlaps. apply Z.leb_le. Qed.

(** The closed intervals [a_start, a_end] and [b_start, b_end] share a
    point. *)
Lemma overlaps_common_point a_start a_end b_start b_end :
  overlaps a_start a_end b_start b_end = true
  <-> exists x, a_start <= x <= a_end /\ b_start <= x <= b_end.
Proof.
  rewrite overlaps_max_min. split.
  - intros H. exists (Z.max a_start b_start). lia.
  - intros [x Hx]. lia.
Qed.

Lemma matching_filter intron brain_regions :
  matching intron brain_regions
  = filter (region_matches intron) brain_regions.
Proof.
  unfold matching.
  induction brain_regions as [|row rs IH]; [done|].
  rewrite filter_cons. simpl. rewrite IH.
  destruct (decide (region_matches intron row)) as [[Hs Ho]|Hn].
  - rewrite bool_decide_eq_true_2 by done.
    by rewrite (proj2 (overlaps_max_min _ _ _ _) Ho).
  - destruct (bool_decide _) eqn:Es; [|done].
    destruct (overlaps _ _ _ _) eqn:Eo; [|done].
    destruct Hn. split; [by apply bool_decide_eq_true in Es|].
    by apply overlaps_max_min.
Qed.

Lemma fold_region_step intron regions result :
  fold_left (region_step intron) regions result
  = result ++ (matched_row intron <$> regions).
Proof.
  revert result. induction regions as [|r rs IH]; intros result; simpl.
  - by rewrite app_nil_r.
  - rewrite IH. unfold region_step, matched_row. by rewrite <- app_assoc.
Qed.

Lemma fold_match_step brain_regions introns result :
  fold_left (match_step brain_regions) introns result
  = result
    ++ (intron ← introns;
        matched_row intron <$> filter (region_matches intron) brain_regions).
Proof.
  revert result. induction introns as [|i rest IH]; intros result; simpl.
  - by rewrite app_nil_r.
  - rewrite IH. unfold match_step.
    by rewrite fold_region_step, matching_filter, <- app_assoc.
Qed.

Lemma matched_records_bind introns brain_regions :
  matched_records introns brain_regions
  = intron ← introns;
    matched_row intron <$> filter (region_matches intron) brain_regions.
Proof. unfold matched_records. by rewrite fold_match_step. Qed.



(** ** [extract_introns]: sorting and grouping *)

Lemma insert_by_start_perm e l : insert_by_start e l ≡ₚ e :: l.
Proof.
  induction l as [|x l IH]; simpl; [done|].
  destruct (Feature.start e <=? Feature.start x); [done|].
  rewrite IH. apply perm_swap.
Qed.

Lemma sort_values_start_perm group : sort_values_start group ≡ₚ group.
Proof.
  induction group as [|e g IH]; simpl; [done|].
  by rewrite insert_by_start_perm, IH.
Qed.

Lemma insert_by_start_sorted e l :
  StronglySorted start_le l -> StronglySorted start_le (insert_by_start e l).
Proof.
  induction 1 as [|x l Hs IH Hx]; simpl; [repeat constructor|].
  destruct (Feature.start e <=? Feature.start x) eqn:E.
  - apply Z.leb_le in E. constructor; [by constructor|].
    constructor; [done|].
    eapply Forall_impl; [exact Hx|]. unfold start_le. intros y Hy. lia.
  - apply Z.leb_gt in E. constructor; [done|].
    rewrite insert_by_start_perm. constructor; [|done].
    unfold start_le. lia.
Qed.

Lemma sort_values_start_sorted group :
  StronglySorted start_le (sort_values_start group).
Proof.
  induction group as [|e g IH]; simpl; [constructor|].
  by apply insert_by_start_sorted.
Qed.

Lemma sort_values_start_length group :
  length (sort_values_start group) = length group.
Proof. by rewrite sort_values_start_perm. Qed.


(** ** [extract_introns]: the loops *)

Lemma fold_intron_step tid group first pre rest acc :
  group !! 0%nat = Some first ->
  fold_left (intron_step tid group (coords_of <$> (pre ++ rest)))
    (seq (length pre) (length rest - 1)) acc
  = acc ++ adjacent_introns tid first rest.
Proof.
  intros Hfirst. revert pre acc.
  induction rest as [|prev rest IH]; intros pre acc.
  - simpl. by rewrite app_nil_r.
  - destruct rest as [|next rest].
    + simpl. by rewrite app_nil_r.
    + assert ((pre ++ [prev]) ++ next :: rest = pre ++ prev :: next :: rest)
        as Happ by (by rewrite <- app_assoc).
      assert (length (pre ++ [prev]) = S (length pre)) as Hlen
        by (rewrite length_app; simpl; lia).
      replace (length (prev :: next :: rest) - 1)%nat
        with (S (length (next :: rest) - 1)) by (simpl; lia).
      rewrite <- cons_seq. simpl fold_left.
      pose proof (IH (pre ++ [prev])) as IH'. rewrite Happ, Hlen in IH'.
      rewrite IH'. clear IH IH'.
      unfold intron_step. rewrite Hfirst, !list_lookup_fmap.
      rewrite (list_lookup_middle pre (next :: rest) prev (length pre) eq_refl).
      rewrite <- Happ.
      rewrite (list_lookup_middle (pre ++ [prev]) rest next (S (length pre)))
        by done.
      simpl. unfold candidate. simpl.
      destruct (Feature.end_ prev + 1 <=? Feature.start next - 1);
        by rewrite <- ?app_assoc.
Qed.

Lemma group_step_introns acc tid group :
  group_step acc (tid, group) = acc ++ group_introns tid group.
Proof.
  unfold group_step, group_introns. simpl.
  destruct (sort_values_start group) as [|first rest] eqn:E.
  - simpl. by rewrite app_nil_r.
  - rewrite length_fmap.
    apply (fold_intron_step tid (first :: rest) first [] (first :: rest) acc).
    done.
Qed.

Lemma fold_group_step groups acc :
  fold_left group_step groups acc
  = acc ++ (g ← groups; group_introns (fst g) (snd g)).
Proof.
  revert acc. induction groups as [|[tid group] gs IH]; intros acc; simpl.
  - by rewrite app_nil_r.
  - by rewrite IH, group_step_introns, <- app_assoc.
Qed.

Lemma intron_records_bind keyed :
  intron_records keyed
  = tid ← group_keys keyed; group_introns tid (transcript_group tid keyed).
Proof.
  unfold intron_records, groupby. rewrite fold_group_step. simpl.
  by rewrite list_fmap_bind.
Qed.

Lemma group_keys_NoDup keyed : NoDup (group_keys keyed).
Proof.
  unfold group_keys. rewrite merge_sort_Permutation. apply NoDup_remove_dups.
Qed.

Lemma adjacent_introns_Forall tid first sorted :
  Forall (fun i =>
            Intron.transcript_id i = tid
            /\ Intron.seqname i = Feature.seqname first
            /\ Intron.strand i = Feature.strand first
            /\ Intron.start i <= Intron.end_ i)
    (adjacent_introns tid first sorted).
Proof.
  induction sorted as [|prev rest IH]; [constructor|].
  destruct rest as [|next rest]; [constructor|].
  cbn [adjacent_introns]. apply Forall_app. split; [|exact IH].
  destruct (Intron.start _ <=? Intron.end_ _) eqn:E; [|constructor].
  apply Z.leb_le in E. by repeat constructor.
Qed.

Lemma adjacent_introns_length tid first sorted :
  (length (adjacent_introns tid first sorted) <= length sorted - 1)%nat.
Proof.
  induction sorted as [|prev rest IH]; [done|].
  destruct rest as [|next rest]; [done|].
  cbn [adjacent_introns]. rewrite length_app.
  destruct (Intron.start _ <=? Intron.end_ _); simpl in *; lia.
Qed.

Lemma group_introns_length tid group :
  (length (group_introns tid group) <= length group - 1)%nat.
Proof.
  unfold group_introns. rewrite <- (sort_values_start_length group).
  destruct (sort_values_start group) as [|first rest] eqn:E; [simpl; lia|].
  apply adjacent_introns_length.
Qed.

Lemma group_introns_Forall tid group :
  Forall (fun i =>
            Intron.transcript_id i = tid
            /\ Intron.start i <= Intron.end_ i
            /\ exists first rest,
                 sort_values_start group = first :: rest
                 /\ Intron.seqname i = Feature.seqname first
                 /\ Intron.strand i = Feature.strand first)
    (group_introns tid group).
Proof.
  unfold group_introns.
  destruct (sort_values_start group) as [|first rest] eqn:E; [constructor|].
  eapply Forall_impl; [apply adjacent_introns_Forall|].
  intros i (Ht & Hs & Hd & Hle). eauto 10.
Qed.

Lemma filter_all {A} (P : A -> Prop) `{!forall x, Decision (P x)} (l : list A) :
  Forall P l -> filter P l = l.
Proof.
  induction 1 as [|x l Hx _ IH]; [done|].
  by rewrite filter_cons_True, IH.
Qed.

Lemma filter_none {A} (P : A -> Prop) `{!forall x, Decision (P x)}
    (l : list A) :
  Forall (fun x => ~ P x) l -> filter P l = [].
Proof.
  induction 1 as [|x l Hx _ IH]; [done|].
  by rewrite filter_cons_False.
Qed.

(** Only the group of a transcript produces introns with its id. *)
Lemma filter_transcript_bind (f : string -> list Intron.t) keys tid :
  NoDup keys ->
  (forall k, Forall (fun i => Intron.transcript_id i = k) (f k)) ->
  filter (fun i => Intron.transcript_id i = tid) (k ← keys; f k)
  = if decide (tid ∈ keys) then f tid else [].
Proof.
  intros Hnd Hf. induction Hnd as [|k ks Hk Hnd IH].
  - by rewrite decide_False by apply not_elem_of_nil.
  - rewrite bind_cons, filter_app, IH. clear IH.
    destruct (decide (k = tid)) as [->|Hne].
    + destruct (decide (tid ∈ tid :: ks)) as [_|Hn]; [|destruct Hn; left].
      destruct (decide (tid ∈ ks)); [done|].
      rewrite app_nil_r. apply filter_all. exact (Hf tid).
    + replace (filter _ (f k)) with (@nil Intron.t).
      * simpl. destruct (decide (tid ∈ ks)) as [Hin|Hin].
        -- destruct (decide (tid ∈ k :: ks)) as [_|Hn]; [done|].
           destruct Hn. by right.
        -- destruct (decide (tid ∈ k :: ks)) as [Hn|_]; [|done].
           apply elem_of_cons in Hn as [?|?]; congruence.
      * symmetry. apply filter_none.
        eapply Forall_impl; [exact (Hf k)|]. intros i Hi. congruence.
Qed.







(** C3: every intron record that is emitted has end >= start; a
    transcript with n exons yields at most n - 1 introns; the touching
    exons (1,100) and (101,200) yield none. *)
Theorem intron_records_end_ge_start :
  (forall keyed,
     Forall (fun i => Intron.start i <= Intron.end_ i) (intron_records keyed))
  /\ (forall keyed tid,
        (length (filter (fun i => Intron.transcript_id i = tid)
                   (intron_records keyed))
         <= length (transcript_group tid keyed) - 1)%nat)
  /\ (forall acc tid group,
        (length (group_step acc (tid, group))
         <= length acc + (length group - 1))%nat)
  /\ (forall seqname strand tid,
        group_step []
          (tid, [exon seqname 1 100 strand tid; exon seqname 101 200 strand tid])
        = [])
  /\ intron_records (zip ["T1"; "T1"] touching_exons) = [].
Proof.
  split; [|split; [|split; [|split]]].
  - intros keyed. rewrite intron_records_bind. apply Forall_bind.
    apply Forall_forall. intros tid _.
    eapply Forall_impl; [apply group_introns_Forall|]. by intros i (_ & ? & _).
  - intros keyed tid. rewrite intron_records_bind.
    rewrite (filter_transcript_bind
               (fun k => group_introns k (transcript_group k keyed))).
    + destruct (decide (tid ∈ group_keys keyed)); [|simpl; lia].
      apply group_introns_length.
    + apply group_keys_NoDup.
    + intros k. eapply Forall_impl; [apply group_introns_Forall|].
      by intros i (? & _).
  - intros acc tid group. rewrite group_step_introns, length_app.
    pose proof (group_introns_length tid group). lia.
  - reflexivity.
  - by vm_compute.
Qed.



(** ** The stages on the heap *)

Lemma bind_run {A B} (m : M A) (k : A -> M B) h h' a :
  m h = (h', Ok a) -> bind m k h = k a h'.
Proof. unfold bind. by intros ->. Qed.

Lemma bind_raise {A B} (m : M A) (k : A -> M B) h h' e :
  m h = (h', Raise e) -> bind m k h = (h', Raise e).
Proof. unfold bind. by intros ->. Qed.

Lemma load_gtf_run h l f :
  h !! l = Some (GtfObj f) -> load_gtf l h = (h, Ok f).
Proof. intros H. unfold load_gtf, bind, load. by rewrite H. Qed.

Lemma load_regions_run h l r :
  h !! l = Some (RegionsObj r) -> load_regions l h = (h, Ok r).
Proof. intros H. unfold load_regions, bind, load. by rewrite H. Qed.

Lemma load_introns_run h l t :
  h !! l = Some (IntronsObj t) -> load_introns l h = (h, Ok t).
Proof. intros H. unfold load_introns, bind, load. by rewrite H. Qed.

Lemma load_matched_run h l t :
  h !! l = Some (MatchedObj t) -> load_matched l h = (h, Ok t).
Proof. intros H. unfold load_matched, bind, load. by rewrite H. Qed.

Lemma load_known_run h l t :
  h !! l = Some (KnownObj t) -> load_known l h = (h, Ok t).
Proof. intros H. unfold load_known, bind, load. by rewrite H. Qed.

Lemma load_merged_run h l t :
  h !! l = Some (MergedObj t) -> load_merged l h = (h, Ok t).
Proof. intros H. unfold load_merged, bind, load. by rewrite H. Qed.

Lemma select_run p h l f :
  h !! l = Some (GtfObj f) ->
  select p l h = (h ++ [GtfObj (select_rows p f)], Ok (length h)).
Proof. intros H. unfold select. by rewrite (bind_run _ _ _ _ _ (load_gtf_run _ _ _ H)). Qed.

Lemma project_regions_run h l f :
  h !! l = Some (GtfObj f) ->
  project_regions l h = (h ++ [RegionsObj (region_of <$> rows f)], Ok (length h)).
Proof.
  intros H. unfold project_regions.
  by rewrite (bind_run _ _ _ _ _ (load_gtf_run _ _ _ H)).
Qed.

Lemma extract_introns_raise h exons f e :
  h !! exons = Some (GtfObj f) ->
  apply parse_attributes (Feature.attribute <$> rows f) = Raise e ->
  extract_introns exons h = (h, Raise e).
Proof.
  intros H Hp. unfold extract_introns.
  rewrite (bind_run _ _ _ _ _ (load_gtf_run _ _ _ H)).
  apply bind_raise. unfold lift. by rewrite Hp.
Qed.

Lemma extract_introns_run h exons f attrs :
  h !! exons = Some (GtfObj f) ->
  apply parse_attributes (Feature.attribute <$> rows f) = Ok attrs ->
  extract_introns exons h
  = (<[exons :=
         GtfObj {| rows := rows f;
                   attributes := Some attrs;
                   transcript_id := Some (get_transcript_id <$> attrs) |}]> h
     ++ [IntronsObj
           (from_records Intron.keys
              (intron_records
                 (zip (get_transcript_id <$> attrs) (rows f))))],
     Ok (length h)).
Proof.
  intros H Hp. unfold extract_introns.
  assert (exons < length h)%nat as Hlt by (by eapply lookup_lt_Some).
  rewrite (bind_run _ _ _ _ _ (load_gtf_run _ _ _ H)).
  erewrite bind_run; [|unfold lift; by rewrite Hp].
  erewrite bind_run; [|reflexivity].
  erewrite bind_run;
    [|apply load_gtf_run; by apply list_lookup_insert_eq].
  erewrite bind_run; [|reflexivity].
  rewrite list_insert_insert_eq.
  erewrite bind_run;
    [|apply load_gtf_run; by apply list_lookup_insert_eq].
  unfold alloc. simpl. by rewrite length_insert.
Qed.

Lemma introns_in_brain_regions_run h introns brain_regions t r :
  h !! introns = Some (IntronsObj t) ->
  h !! brain_regions = Some (RegionsObj r) ->
  introns_in_brain_regions introns brain_regions h
  = (h ++ [MatchedObj
             (from_records Matched.keys (matched_records (records t) r))],
     Ok (length h)).
Proof.
  intros Hi Hr. unfold introns_in_brain_regions.
  rewrite (bind_run _ _ _ _ _ (load_introns_run _ _ _ Hi)).
  by rewrite (bind_run _ _ _ _ _ (load_regions_run _ _ _ Hr)).
Qed.

Lemma pd_merge_run h left right l r :
  h !! left = Some (KnownObj l) ->
  h !! right = Some (MatchedObj r) ->
  pd_merge left right h
  = match merge l r with
    | Ok t => (h ++ [MergedObj t], Ok (length h))
    | Raise e => (h, Raise e)
    end.
Proof.
  intros Hl Hr. unfold pd_merge.
  rewrite (bind_run _ _ _ _ _ (load_known_run _ _ _ Hl)).
  rewrite (bind_run _ _ _ _ _ (load_matched_run _ _ _ Hr)).
  unfold bind, lift, alloc. by destruct (merge l r).
Qed.

Lemma by_mask_filter {A} (p : A -> bool) (l : list A) :
  by_mask (p <$> l) l = List.filter p l.
Proof.
  unfold by_mask. induction l as [|x l IH]; [done|].
  simpl. destruct (p x); simpl; [f_equal|]; exact IH.
Qed.

Lemma select_rows_annotation p rs :
  select_rows p (annotation rs) = annotation (List.filter p rs).
Proof. unfold select_rows, annotation. simpl. by rewrite by_mask_filter. Qed.

Lemma insert_snoc {A} (l : list A) (x y : A) :
  <[length l := x]> (l ++ [y]) = l ++ [x].
Proof.
  rewrite insert_app_r_alt by lia. by rewrite Nat.sub_diag.
Qed.

Lemma records_from_records {A} keys (rs : list A) :
  records (from_records keys rs) = rs.
Proof. done. Qed.

Lemma lookup_new (h : heap) (o : obj) : (h ++ [o]) !! length h = Some o.
Proof. by apply list_lookup_middle. Qed.

Lemma lookup_old (h : heap) (o o' : obj) (l : loc) :
  h !! l = Some o' -> (h ++ [o]) !! l = Some o'.
Proof. apply lookup_app_l_Some. Qed.

(** [main] step by step: what it leaves on the heap and what it
    returns. *)
Lemma main_run gtf_table brain_gtf_table known_introns_table h :
  exists ext,
    main gtf_table brain_gtf_table known_introns_table h
    = (h ++ ext, pipeline gtf_table brain_gtf_table known_introns_table).
Proof.
  unfold main, pipeline.
  erewrite bind_run; [|reflexivity].
  pose proof (lookup_new h (GtfObj (annotation gtf_table))) as Hgtf.
  remember (h ++ [GtfObj (annotation gtf_table)]) as h1 eqn:E1.
  erewrite bind_run; [|apply (select_run _ _ _ _ Hgtf)].
  rewrite select_rows_annotation.
  set (exons := List.filter is_exon gtf_table).
  pose proof (lookup_new h1 (GtfObj (annotation exons))) as Hexons.
  remember (h1 ++ [GtfObj (annotation exons)]) as h2 eqn:E2.
  destruct (apply parse_attributes (Feature.attribute <$> exons))
    as [attrs|e] eqn:Hp.
  - erewrite bind_run;
      [|apply (extract_introns_run _ _ (annotation exons) attrs Hexons Hp)].
    simpl rows.
    set (introns := intron_records (zip (get_transcript_id <$> attrs) exons)).
    assert (exists h3,
              h3 = h1 ++ [GtfObj {| rows := exons; attributes := Some attrs;
                                    transcript_id :=
                                      Some (get_transcript_id <$> attrs) |}]
              /\ length h2 = length h3) as (h3 & E3 & ->).
    { eexists. split; [done|]. subst h2. by rewrite !length_app. }
    replace (<[length h1 := _]> h2) with h3
      by (subst h2 h3; by rewrite insert_snoc).
    clear Hexons.
    pose proof (lookup_new h3 (IntronsObj (from_records Intron.keys introns)))
      as Hintrons.
    remember (h3 ++ [IntronsObj (from_records Intron.keys introns)])
      as h4 eqn:E4.
    erewrite bind_run; [|reflexivity].
    pose proof (lookup_new h4 (GtfObj (annotation brain_gtf_table))) as Hbrain.
    apply (lookup_old _ (GtfObj (annotation brain_gtf_table))) in Hintrons.
    remember (h4 ++ [GtfObj (annotation brain_gtf_table)]) as h5 eqn:E5.
    erewrite bind_run; [|apply (select_run _ _ _ _ Hbrain)].
    rewrite select_rows_annotation.
    set (others := List.filter (fun e => negb (is_exon e)) brain_gtf_table).
    pose proof (lookup_new h5 (GtfObj (annotation others))) as Hothers.
    apply (lookup_old _ (GtfObj (annotation others))) in Hintrons.
    remember (h5 ++ [GtfObj (annotation others)]) as h6 eqn:E6.
    erewrite bind_run; [|apply (project_regions_run _ _ _ Hothers)].
    simpl rows. set (brain_regions := region_of <$> others).
    pose proof (lookup_new h6 (RegionsObj brain_regions)) as Hregions.
    apply (lookup_old _ (RegionsObj brain_regions)) in Hintrons.
    remember (h6 ++ [RegionsObj brain_regions]) as h7 eqn:E7.
    erewrite bind_run;
      [|apply (introns_in_brain_regions_run _ _ _ _ _ Hintrons Hregions)].
    rewrite records_from_records.
    set (matched :=
           from_records Matched.keys (matched_records introns brain_regions)).
    pose proof (lookup_new h7 (MatchedObj matched)) as Hmatched.
    remember (h7 ++ [MatchedObj matched]) as h8 eqn:E8.
    erewrite bind_run; [|reflexivity].
    pose proof (lookup_new h8 (KnownObj known_introns_table)) as Hknown.
    apply (lookup_old _ (KnownObj known_introns_table)) in Hmatched.
    remember (h8 ++ [KnownObj known_introns_table]) as h9 eqn:E9.
    pose proof (pd_merge_run _ _ _ _ _ Hknown Hmatched) as Hmerge.
    destruct (merge known_introns_table matched) as [t|e] eqn:Hm.
    + erewrite bind_run; [|exact Hmerge].
      rewrite (load_merged_run _ _ t) by apply lookup_new.
      subst. rewrite <- !app_assoc. eauto.
    + erewrite bind_raise; [|exact Hmerge].
      subst. rewrite <- !app_assoc. eauto.
  - erewrite bind_raise;
      [|apply (extract_introns_raise _ _ (annotation exons) e Hexons Hp)].
    subst. rewrite <- !app_assoc. eauto.
Qed.


(** ** The coordinate merge *)

Lemma same_key_spec k m :
  same_key k m = true
  <-> Known.seqname k = Intron.seqname (Matched.intron m)
      /\ Known.start k = Intron.start (Matched.intron m)
      /\ Known.end_ k = Intron.end_ (Matched.intron m).
Proof.
  unfold same_key. rewrite !andb_true_iff, bool_decide_eq_true, !Z.eqb_eq.
  tauto.
Qed.

(** The rows of the merge are the pairs with equal key triples. *)
Lemma joined_spec left right k m :
  (k, m) ∈ joined left right
  <-> k ∈ left /\ m ∈ right /\ same_key k m = true.
Proof.
  unfold joined. rewrite list_elem_of_bind. split.
  - intros (k' & Hin & Hk).
    apply list_elem_of_fmap in Hin as (m' & [= -> ->] & Hm).
    apply list_elem_of_In, filter_In in Hm as [Hm Hs].
    apply list_elem_of_In in Hm. done.
  - intros (Hk & Hm & Hs). exists k. split; [|done].
    apply list_elem_of_fmap. exists m. split; [done|].
    apply list_elem_of_In, filter_In. by rewrite <- list_elem_of_In.
Qed.

(** With both tables carrying the key columns the merge succeeds, also
    when no key matches. *)
Lemma merge_inner_join left right :
  Forall (fun key => key ∈ columns left /\ key ∈ columns right) on_ ->
  exists t,
    merge left right = Ok t
    /\ records t = joined (records left) (records right).
Proof.
  intros H. unfold merge.
  destruct (List.find _ on_) as [key|] eqn:E; [|eauto].
  apply find_some in E as [Hin Hneg].
  rewrite Forall_forall in H. apply list_elem_of_In, H in Hin as [Hl Hr].
  by rewrite !bool_decide_eq_true_2 in Hneg.
Qed.

(** C4, where the code departs from it: when the region-matched table
    has no rows it has no columns either, and the merge raises a key
    error for "seqname" instead of returning an empty result; so does
    [main] when no intron overlaps a region. *)
Theorem merge_raises_on_empty_matched :
  (forall known_introns_table,
     merge known_introns_table (from_records Matched.keys [])
     = Raise (KeyError "seqname"))
  /\ (forall h,
        snd (main three_exons [region "chr2" "hippocampus" 150 250]
               known_one h)
        = Raise (KeyError "seqname"))
  /\ matched_records
       (intron_records (zip ["T1"; "T1"; "T1"] three_exons))
       [region_of (region "chr2" "hippocampus" 150 250)]
     = [].
Proof.
  split; [|split].
  - intros known. unfold merge. simpl. by rewrite andb_false_r.
  - intros h.
    destruct (main_run three_exons [region "chr2" "hippocampus" 150 250]
                known_one h) as [ext ->].
    by vm_compute.
  - by vm_compute.
Qed.

(** ** What the stages write *)

Ltac unfold_stage :=
  unfold introns_in_brain_regions, pd_merge, load_introns, load_regions,
    load_known, load_matched, bind, load, ret, raise, lift, alloc.

Lemma introns_in_brain_regions_frame introns brain_regions h (l : nat) :
  (l < length h)%nat ->
  fst (introns_in_brain_regions introns brain_regions h) !! l = h !! l.
Proof.
  intros Hl. unfold_stage.
  destruct (h !! introns) as [[]|]; simpl; try done.
  destruct (h !! brain_regions) as [[]|]; simpl; try done.
  by apply lookup_app_l.
Qed.

Lemma pd_merge_frame left right h (l : nat) :
  (l < length h)%nat ->
  fst (pd_merge left right h) !! l = h !! l.
Proof.
  intros Hl. unfold_stage.
  destruct (h !! left) as [[]|]; simpl; try done.
  destruct (h !! right) as [[]|]; simpl; try done.
  destruct (merge _ _); simpl; [|done].
  by apply lookup_app_l.
Qed.

Lemma introns_in_brain_regions_fresh introns brain_regions h (l : nat) :
  snd (introns_in_brain_regions introns brain_regions h) = Ok l ->
  l = length h.
Proof.
  unfold_stage.
  destruct (h !! introns) as [[]|]; simpl; try done.
  destruct (h !! brain_regions) as [[]|]; simpl; try done.
  by intros [= <-].
Qed.

Lemma pd_merge_fresh left right h (l : nat) :
  snd (pd_merge left right h) = Ok l -> l = length h.
Proof.
  unfold_stage.
  destruct (h !! left) as [[]|]; simpl; try done.
  destruct (h !! right) as [[]|]; simpl; try done.
  destruct (merge _ _); simpl; [|done].
  by intros [= <-].
Qed.

(** C9, as the code has it: intron derivation writes to the exon table
    it receives, adding the columns [attributes] and [transcript_id] (no
    write at all when attribute parsing raises) and leaving its rows
    and every other object as they were; the overlap matcher and the
    merge leave every existing object, their inputs included, as it
    was.  The table a stage returns is a new object. *)
Theorem extract_introns_adds_two_columns h exons f :
  h !! exons = Some (GtfObj f) ->
  (exists f',
     fst (extract_introns exons h) !! exons = Some (GtfObj f')
     /\ rows f' = rows f
     /\ match apply parse_attributes (Feature.attribute <$> rows f) with
        | Ok attrs =>
            attributes f' = Some attrs
            /\ transcript_id f' = Some (get_transcript_id <$> attrs)
            /\ snd (extract_introns exons h) = Ok (length h)
        | Raise e =>
            f' = f /\ snd (extract_introns exons h) = Raise e
        end)
  /\ (forall l : nat,
        l <> exons -> (l < length h)%nat ->
        fst (extract_introns exons h) !! l = h !! l)
  /\ (forall introns brain_regions (l : nat),
        ((l < length h)%nat ->
         fst (introns_in_brain_regions introns brain_regions h) !! l = h !! l)
        /\ (snd (introns_in_brain_regions introns brain_regions h) = Ok l ->
            l = length h))
  /\ (forall left right (l : nat),
        ((l < length h)%nat -> fst (pd_merge left right h) !! l = h !! l)
        /\ (snd (pd_merge left right h) = Ok l -> l = length h)).
Proof.
  intros H.
  assert (exons < length h)%nat as Hlt by (by eapply lookup_lt_Some).
  split; [|split; [|split]].
  - destruct (apply parse_attributes (Feature.attribute <$> rows f))
      as [attrs|e] eqn:Hp.
    + rewrite (extract_introns_run _ _ _ _ H Hp). simpl.
      exists {| rows := rows f; attributes := Some attrs;
                transcript_id := Some (get_transcript_id <$> attrs) |}.
      split; [|done].
      rewrite lookup_app_l by (by rewrite length_insert).
      by apply list_lookup_insert_eq.
    + rewrite (extract_introns_raise _ _ _ _ H Hp). simpl. eauto.
  - intros l Hne Hl.
    destruct (apply parse_attributes (Feature.attribute <$> rows f))
      as [attrs|e] eqn:Hp.
    + rewrite (extract_introns_run _ _ _ _ H Hp). simpl.
      rewrite lookup_app_l by (by rewrite length_insert).
      by apply list_lookup_insert_ne.
    + by rewrite (extract_introns_raise _ _ _ _ H Hp).
  - intros introns brain_regions l.
    split; [apply introns_in_brain_regions_frame|].
    apply introns_in_brain_regions_fresh.
  - intros left right l. split; [apply pd_merge_frame|apply pd_merge_fresh].
Qed.

Lemma extract_introns_adds_two_columns_witness :
  exists f',
    fst (extract_introns 0 [GtfObj (annotation three_exons)]) !! 0%nat
    = Some (GtfObj f')
    /\ rows f' = three_exons.
Proof.
  destruct (extract_introns_adds_two_columns
              [GtfObj (annotation three_exons)] 0 (annotation three_exons)
              eq_refl) as [(f' & Hf & Hrows & _) _].
  exists f'. split; [exact Hf|exact Hrows].
Defined.

(** C9 as stated fails: the exon table has nine columns when
    [extract_introns] receives it and eleven when it returns. *)
Lemma extract_introns_modifies_exons :
  [GtfObj (annotation three_exons)] !! 0%nat
  = Some (GtfObj (annotation three_exons))
  /\ gtf_columns (annotation three_exons) = cols
  /\ exists f',
       fst (extract_introns 0 [GtfObj (annotation three_exons)]) !! 0%nat
       = Some (GtfObj f')
       /\ gtf_columns f' = cols ++ ["attributes"; "transcript_id"]
       /\ f' <> annotation three_exons.
Proof.
  split; [done|]. split; [done|].
  eexists. split; [by vm_compute|]. split; [by vm_compute|]. done.
Qed.

(** * Further properties of the code *)

(** ** [overlaps] *)

(** X1: [overlaps] holds exactly when both intervals have
    [start <= end] and each starts no later than the other ends, so an
    interval with [end < start] overlaps nothing, not even itself; the
    test does not depend on the order of the two intervals. *)
Theorem overlaps_iff_bounds a_start a_end b_start b_end :
  (overlaps a_start a_end b_start b_end = true
   <-> a_start <= a_end /\ b_start <= b_end
       /\ a_start <= b_end /\ b_start <= a_end)
  /\ overlaps a_start a_end b_start b_end
     = overlaps b_start b_end a_start a_end.
Proof.
  split.
  - rewrite overlaps_max_min. lia.
  - unfold overlaps. by rewrite Z.max_comm, Z.min_comm.
Qed.

(** ** [parse_attributes]: when it raises, what it returns *)

Lemma cut_None_iff sep s : Py.cut sep s = None <-> sep ∉ Py.chars s.
Proof.
  split; [|apply cut_None].
  intros H Hin. destruct (Py.cut sep s) as [[a b]|] eqn:E; [done|].
  clear H. induction s as [|d s IH]; simpl in *; [by apply elem_of_nil in Hin|].
  destruct (Py.is_char sep d) eqn:Ed; [done|].
  apply is_char_false in Ed.
  apply elem_of_cons in Hin as [->|Hin]; [done|].
  destruct (Py.cut sep s) as [[a b]|]; [done|]. by apply IH.
Qed.

Lemma parse_item_Raise_iff attrs item :
  parse_item attrs item = Raise ValueError
  <-> Py.strip item <> EmptyString /\ Py.space ∉ Py.chars (Py.strip item).
Proof.
  unfold parse_item, Py.split1. rewrite <- cut_None_iff.
  destruct (Py.strip item) as [|c s]; simpl Py.nonempty; cbv iota.
  - split; [done|]. by intros [? _].
  - destruct (Py.cut Py.space (String c s)) as [[a b]|]; split; try done.
    by intros [_ ?].
Qed.

Lemma parse_items_Raise_iff items attrs :
  parse_items attrs items = Raise ValueError
  <-> exists item,
        item ∈ items
        /\ Py.strip item <> EmptyString
        /\ Py.space ∉ Py.chars (Py.strip item).
Proof.
  revert attrs. induction items as [|first items IH]; intros attrs; simpl.
  - split; [done|]. by intros (item & ?%elem_of_nil & _).
  - destruct (parse_item attrs first) as [attrs1|e] eqn:E.
    + rewrite IH. split.
      * intros (item & Hin & H). exists item. split; [by right|done].
      * intros (item & Hin & H). apply elem_of_cons in Hin as [->|Hin].
        -- apply (parse_item_Raise_iff attrs) in H. congruence.
        -- by exists item.
    + pose proof (parse_item_exn _ _ _ E) as ->. split; [|done].
      intros _. exists first. split; [left|].
      by apply (parse_item_Raise_iff attrs).
Qed.

Lemma parse_items_exn items attrs e :
  parse_items attrs items = Raise e -> e = ValueError.
Proof.
  revert attrs. induction items as [|first items IH]; intros attrs; simpl.
  - done.
  - destruct (parse_item attrs first) as [attrs1|e1] eqn:E; [apply IH|].
    intros [= <-]. by eapply parse_item_exn.
Qed.

(** X2: [parse_attributes] raises exactly when some piece of the
    stripped string between semicolons is, once stripped itself, not
    empty and without a space; the exception is then a [ValueError],
    and it raises nothing else. *)
Theorem parse_attributes_raises_iff attr_str :
  (parse_attributes attr_str = Raise ValueError
   <-> exists item,
         item ∈ Py.split Py.semicolon (Py.strip attr_str)
         /\ Py.strip item <> EmptyString
         /\ Py.space ∉ Py.chars (Py.strip item))
  /\ (forall e, parse_attributes attr_str = Raise e -> e = ValueError).
Proof.
  split; [apply parse_items_Raise_iff|]. intros e. apply parse_items_exn.
Qed.

Lemma chars_app a b : Py.chars (a +:+ b) = Py.chars a ++ Py.chars b.
Proof. induction a as [|c a IH]; [done|]. simpl. by rewrite <- IH. Qed.

Lemma cut_spec sep s a b :
  Py.cut sep s = Some (a, b) ->
  (sep ∉ Py.chars a) /\ s = a +:+ String sep b.
Proof.
  revert a. induction s as [|d s IH]; intros a; simpl; [done|].
  destruct (Py.is_char sep d) eqn:E.
  - apply is_char_true in E as ->. intros [= <- <-].
    split; [apply not_elem_of_nil|done].
  - apply is_char_false in E.
    destruct (Py.cut sep s) as [[a' b']|]; [|done].
    intros [= <- <-]. destruct (IH a' eq_refl) as [Hn ->].
    split; [|done]. simpl. by apply not_elem_of_cons.
Qed.

Lemma split_elem_no_sep sep s item :
  item ∈ Py.split sep s -> sep ∉ Py.chars item.
Proof.
  revert item. induction s as [|d s IH]; intros item; simpl.
  - intros ->%list_elem_of_singleton. apply not_elem_of_nil.
  - destruct (Py.is_char sep d) eqn:E.
    + intros [->|Hin]%elem_of_cons; [apply not_elem_of_nil|by apply IH].
    + apply is_char_false in E.
      destruct (Py.split sep s) as [|hd tl]; simpl.
      * intros ->%list_elem_of_singleton. simpl.
        apply not_elem_of_cons. split; [done|apply not_elem_of_nil].
      * intros [->|Hin]%elem_of_cons.
        -- simpl. apply not_elem_of_cons. split; [done|]. apply IH. left.
        -- apply IH. by right.
Qed.

Lemma lstrip_by_head p s c r :
  Py.lstrip_by p s = String c r -> p c = false.
Proof.
  induction s as [|d s IH]; simpl; [done|].
  destruct (p d) eqn:E; [done|]. by intros [= <- _].
Qed.

Lemma rstrip_by_head p s c r :
  Py.rstrip_by p s = String c r -> exists r', s = String c r'.
Proof.
  destruct s as [|d s]; simpl; [done|].
  destruct (Py.rstrip_by p s).
  - destruct (p d); [done|]. intros [= <- _]. eauto.
  - intros [= <- _]. eauto.
Qed.

Lemma strip_by_head p s c r :
  Py.strip_by p s = String c r -> p c = false.
Proof.
  unfold Py.strip_by. intros [r' H]%rstrip_by_head.
  by eapply lstrip_by_head.
Qed.

Lemma rstrip_by_last p s w c :
  Py.rstrip_by p s = w +:+ String c EmptyString -> p c = false.
Proof.
  revert w. induction s as [|d s IH]; intros w; simpl.
  - by destruct w.
  - destruct (Py.rstrip_by p s) as [|e r] eqn:E.
    + destruct (p d) eqn:Ed; [by destruct w|].
      destruct w as [|x [|y w]]; simpl; [by intros [= <-]|done..].
    + destruct w as [|x w]; simpl; [done|].
      intros [= <- H]. by apply (IH w).
Qed.

Lemma strip_by_last p s w c :
  Py.strip_by p s = w +:+ String c EmptyString -> p c = false.
Proof. apply rstrip_by_last. Qed.

Lemma item_pair_key item key value :
  item_pair item = Some (key, value) ->
  key <> EmptyString
  /\ (Py.space ∉ Py.chars key)
  /\ (forall c, c ∈ Py.chars key -> c ∈ Py.chars item)
  /\ (forall c, c ∈ Py.chars value -> c ∈ Py.chars item)
  /\ (forall w, value <> String Py.dquote w)
  /\ (forall w, value <> w +:+ String Py.dquote EmptyString).
Proof.
  unfold item_pair.
  destruct (Py.cut Py.space (Py.strip item)) as [[k v]|] eqn:E; [|done].
  intros [= <- <-]. destruct (cut_spec _ _ _ _ E) as [Hsp Hs].
  assert (forall c, c ∈ Py.chars (Py.strip item) -> c ∈ Py.chars item)
    as Hsub by (intros c; apply chars_strip_by).
  rewrite Hs, chars_app in Hsub. simpl in Hsub.
  split; [|split; [done|split; [|split; [|split]]]].
  - intros ->. simpl in Hs.
    by apply (strip_by_head Py.isspace) in Hs.
  - intros c Hc. apply Hsub, elem_of_app. by left.
  - intros c Hc%chars_strip_by. apply Hsub, elem_of_app. right. by right.
  - intros w Hw. by apply (strip_by_head (Py.is_char Py.dquote)) in Hw.
  - intros w Hw. by apply (strip_by_last (Py.is_char Py.dquote)) in Hw.
Qed.

Lemma parse_items_lookup_inv items attrs attrs' key value :
  parse_items attrs items = Ok attrs' ->
  attrs' !! key = Some value ->
  attrs !! key = Some value
  \/ exists item, item ∈ items /\ item_pair item = Some (key, value).
Proof.
  revert attrs. induction items as [|first items IH]; intros attrs; simpl.
  - intros [= <-]. by left.
  - destruct (parse_item attrs first) as [attrs1|] eqn:E; [|done].
    intros Hrest Hk. destruct (IH _ Hrest Hk) as [H1|(item & Hin & Hp)].
    + apply parse_item_Ok in E. subst attrs1.
      destruct (item_pair first) as [[k v]|] eqn:Ep; [|by left].
      destruct (decide (k = key)) as [->|Hne].
      * rewrite lookup_insert_eq in H1. injection H1 as ->.
        right. exists first. split; [left|done].
      * rewrite lookup_insert_ne in H1 by done. by left.
    + right. exists item. split; [by right|done].
Qed.

Lemma parse_items_lookup_is_Some items attrs attrs' key :
  parse_items attrs items = Ok attrs' ->
  is_Some (attrs !! key)
  \/ (exists item value, item ∈ items /\ item_pair item = Some (key, value)) ->
  is_Some (attrs' !! key).
Proof.
  revert attrs. induction items as [|first items IH]; intros attrs; simpl.
  - intros [= <-] [H|(item & v & Hin & _)]; [done|by apply elem_of_nil in Hin].
  - destruct (parse_item attrs first) as [attrs1|] eqn:E; [|done].
    intros Hrest H. apply (IH _ Hrest).
    apply parse_item_Ok in E. subst attrs1.
    destruct H as [H|(item & v & Hin & Hp)].
    + left. destruct (item_pair first) as [[k v]|]; [|done].
      destruct (decide (k = key)) as [->|Hne].
      * rewrite lookup_insert_eq. eauto.
      * by rewrite lookup_insert_ne.
    + apply elem_of_cons in Hin as [->|Hin].
      * left. rewrite Hp. rewrite lookup_insert_eq. eauto.
      * right. eauto.
Qed.

(** X3: in a mapping [parse_attributes] returns, every key is
    non-empty and holds neither a space nor a semicolon, and every
    value holds no semicolon and neither starts nor ends with a double
    quote. *)
Theorem parse_attributes_entries attr_str attrs key value :
  parse_attributes attr_str = Ok attrs ->
  attrs !! key = Some value ->
  key <> EmptyString
  /\ (Py.space ∉ Py.chars key)
  /\ (Py.semicolon ∉ Py.chars key)
  /\ (Py.semicolon ∉ Py.chars value)
  /\ (forall w, value <> String Py.dquote w)
  /\ (forall w, value <> w +:+ String Py.dquote EmptyString).
Proof.
  intros Hparse Hk.
  destruct (parse_items_lookup_inv _ _ _ _ _ Hparse Hk)
    as [H|(item & Hin & Hp)]; [by rewrite lookup_empty in H|].
  apply split_elem_no_sep in Hin.
  destruct (item_pair_key _ _ _ Hp) as (H1 & H2 & H3 & H4 & H5 & H6).
  repeat split; try done.
  - intros H. by apply Hin, H3.
  - intros H. by apply Hin, H4.
Qed.

Lemma parse_attributes_entries_witness :
  exists attrs,
    parse_attributes ("gene_id " +:+ quoted "G" +:+ "; transcript_id "
                      +:+ quoted "T1" +:+ ";")
    = Ok attrs
    /\ attrs !! "transcript_id" = Some "T1"
    /\ Py.space ∉ Py.chars "transcript_id".
Proof.
  eexists. split; [by vm_compute|]. split; [by vm_compute|].
  eapply (parse_attributes_entries
            ("gene_id " +:+ quoted "G" +:+ "; transcript_id "
             +:+ quoted "T1" +:+ ";") _ "transcript_id" "T1").
  - by vm_compute.
  - by vm_compute.
Defined.

(** X4: a key is bound in the mapping [parse_attributes] returns
    exactly when some piece between semicolons, once stripped, has that
    key before its first space; a string of white space alone gives the
    empty mapping. *)
Theorem parse_attributes_keys attr_str attrs :
  parse_attributes attr_str = Ok attrs ->
  (forall key,
     is_Some (attrs !! key)
     <-> exists item val,
           item ∈ Py.split Py.semicolon (Py.strip attr_str)
           /\ Py.cut Py.space (Py.strip item) = Some (key, val))
  /\ (Py.strip attr_str = EmptyString -> attrs = ∅).
Proof.
  intros Hparse. split.
  - intros key. split.
    + intros [value Hk].
      destruct (parse_items_lookup_inv _ _ _ _ _ Hparse Hk)
        as [H|(item & Hin & Hp)]; [by rewrite lookup_empty in H|].
      unfold item_pair in Hp.
      destruct (Py.cut Py.space (Py.strip item)) as [[k v]|] eqn:E; [|done].
      injection Hp as -> _. eauto.
    + intros (item & val & Hin & Hcut).
      apply (parse_items_lookup_is_Some _ _ _ _ Hparse). right.
      exists item, (Py.strip_char Py.dquote val). split; [done|].
      unfold item_pair. by rewrite Hcut.
  - intros Hblank. unfold parse_attributes in Hparse.
    rewrite Hblank in Hparse. simpl in Hparse. by injection Hparse.
Qed.

Lemma parse_attributes_keys_witness :
  exists attrs,
    parse_attributes ("gene_id " +:+ quoted "G") = Ok attrs
    /\ (is_Some (attrs !! "gene_id")
        <-> exists item val,
              item ∈ Py.split Py.semicolon
                       (Py.strip ("gene_id " +:+ quoted "G"))
              /\ Py.cut Py.space (Py.strip item) = Some ("gene_id", val)).
Proof.
  eexists. split; [by vm_compute|].
  apply (parse_attributes_keys ("gene_id " +:+ quoted "G")).
  by vm_compute.
Defined.

(** ** [extract_introns]: transcripts *)



Lemma group_keys_sorted keyed : StronglySorted String.le (group_keys keyed).
Proof. unfold group_keys. apply StronglySorted_merge_sort; apply _. Qed.



Lemma sorted_blocks {A} (f : A -> string) (g : string -> list A) keys :
  StronglySorted String.le keys ->
  (forall k, Forall (fun i => f i = k) (g k)) ->
  StronglySorted String.le (f <$> (k ← keys; g k)).
Proof.
  intros Hs Hg. induction Hs as [|k keys Hs IH Hk]; [constructor|].
  rewrite bind_cons, fmap_app.
  assert (Forall (String.le k) (f <$> (k' ← keys; g k'))) as Hrest.
  { apply Forall_fmap, Forall_bind. eapply Forall_impl; [exact Hk|].
    intros k' Hle. eapply Forall_impl; [apply Hg|].
    intros i <-. exact Hle. }
  assert (Forall (fun x => x = k) (f <$> g k)) as Hblock
    by (apply Forall_fmap; exact (Hg k)).
  rewrite Forall_forall in Hblock, Hrest.
  apply StronglySorted_app_2; [| |exact IH].
  - intros x1 x2 ->%Hblock H2. by apply Hrest.
  - clear -Hblock. induction (f <$> g k) as [|x l IHl]; [constructor|].
    constructor.
    + apply IHl. intros y Hy. apply Hblock. by right.
    + apply Forall_forall. intros y Hy.
      rewrite (Hblock x) by left. rewrite (Hblock y) by (by right).
      reflexivity.
Qed.

(** X6: the records of the result come transcript by transcript, in
    ascending order of transcript_id. *)
Theorem intron_records_sorted_by_transcript keyed :
  StronglySorted String.le (Intron.transcript_id <$> intron_records keyed).
Proof.
  rewrite intron_records_bind.
  apply (sorted_blocks Intron.transcript_id
           (fun k => group_introns k (transcript_group k keyed))).
  - apply group_keys_sorted.
  - intros k. eapply Forall_impl; [apply group_introns_Forall|].
    by intros i (? & _).
Qed.






(** ** [extract_introns]: the order of the rows *)

Lemma transcript_group_perm keyed keyed' tid :
  keyed ≡ₚ keyed' ->
  transcript_group tid keyed ≡ₚ transcript_group tid keyed'.
Proof.
  unfold transcript_group.
  induction 1 as [|kr l l' _ IH|kr1 kr2 l|l1 l2 l3 _ IH1 _ IH2]; [done| | |].
  - cbn [List.filter]. destruct (bool_decide _); [|exact IH].
    rewrite !fmap_cons. by rewrite IH.
  - cbn [List.filter].
    destruct (bool_decide (fst kr1 = tid)), (bool_decide (fst kr2 = tid));
      rewrite ?fmap_cons; try done.
    apply perm_swap.
  - by rewrite IH1.
Qed.

Lemma group_keys_perm keyed keyed' :
  keyed ≡ₚ keyed' -> group_keys keyed = group_keys keyed'.
Proof.
  intros Hp.
  apply (StronglySorted_unique String.le); [apply group_keys_sorted..|].
  unfold group_keys. rewrite !merge_sort_Permutation.
  apply NoDup_Permutation; [apply NoDup_remove_dups..|].
  intros x. rewrite !elem_of_remove_dups. by rewrite Hp.
Qed.

Lemma NoDup_fmap_eq {A B} (f : A -> B) (l : list A) x y :
  NoDup (f <$> l) -> x ∈ l -> y ∈ l -> f x = f y -> x = y.
Proof.
  induction l as [|a l IH]; [by intros _ ?%elem_of_nil|].
  rewrite fmap_cons. intros [Ha Hl]%NoDup_cons Hx Hy Hf.
  apply elem_of_cons in Hx as [->|Hx]; apply elem_of_cons in Hy as [->|Hy].
  - done.
  - destruct Ha. rewrite Hf. apply list_elem_of_fmap. eauto.
  - destruct Ha. rewrite <- Hf. apply list_elem_of_fmap. eauto.
  - by apply IH.
Qed.

Lemma sort_values_start_perm_eq group group' :
  group ≡ₚ group' ->
  NoDup (Feature.start <$> group) ->
  sort_values_start group = sort_values_start group'.
Proof.
  intros Hp Hnd.
  apply (StronglySorted_unique_strong start_le);
    [|apply sort_values_start_sorted..|].
  - intros x1 x2 H1 H2 Hle1 Hle2.
    rewrite sort_values_start_perm in H1, H2. rewrite <- Hp in H2.
    apply (NoDup_fmap_eq Feature.start group); [done..|].
    unfold start_le in *. lia.
  - by rewrite !sort_values_start_perm.
Qed.

(** X8: when the exons of each transcript have pairwise different
    starts, the result does not depend on the order of the rows of the
    exon table. *)
Theorem intron_records_order_independent keyed keyed' :
  keyed ≡ₚ keyed' ->
  (forall tid, NoDup (Feature.start <$> transcript_group tid keyed)) ->
  intron_records keyed = intron_records keyed'.
Proof.
  intros Hp Hnd. rewrite !intron_records_bind.
  rewrite <- (group_keys_perm _ _ Hp).
  apply Forall_bind_ext, Forall_forall. intros tid _.
  unfold group_introns.
  by rewrite (sort_values_start_perm_eq _ _
                (transcript_group_perm _ _ tid Hp) (Hnd tid)).
Qed.

Lemma intron_records_order_independent_witness :
  intron_records (zip ["T1"; "T1"; "T1"] three_exons)
  = intron_records (zip ["T1"; "T1"; "T1"] (reverse three_exons)).
Proof.
  apply intron_records_order_independent.
  - change (zip ["T1"; "T1"; "T1"] (reverse three_exons))
      with (reverse (zip ["T1"; "T1"; "T1"] three_exons)).
    by rewrite reverse_Permutation.
  - intros tid. unfold transcript_group, three_exons. simpl.
    destruct (bool_decide ("T1" = tid)); simpl.
    + repeat (apply NoDup_cons; split;
                [rewrite ?elem_of_cons, elem_of_nil; lia|]).
      apply NoDup_nil_2.
    + apply NoDup_nil_2.
Defined.

(** ** [extract_introns]: a second call *)

(** X9: calling [extract_introns] again on the same exon table writes
    the same two columns again, so the table stays as the first call
    left it, and returns a new table with the same records. *)
Theorem extract_introns_again h exons f attrs :
  h !! exons = Some (GtfObj f) ->
  apply parse_attributes (Feature.attribute <$> rows f) = Ok attrs ->
  exists h1 t,
    extract_introns exons h = (h1 ++ [IntronsObj t], Ok (length h))
    /\ length h1 = length h
    /\ extract_introns exons (h1 ++ [IntronsObj t])
       = ((h1 ++ [IntronsObj t]) ++ [IntronsObj t], Ok (S (length h))).
Proof.
  intros H Hp.
  assert (exons < length h)%nat as Hlt by (by eapply lookup_lt_Some).
  do 2 eexists. split; [apply (extract_introns_run _ _ _ _ H Hp)|].
  split; [by rewrite length_insert|].
  match goal with
  | |- extract_introns _ (<[_ := GtfObj ?f1]> _ ++ _) = _ =>
      rewrite (extract_introns_run _ exons f1 attrs)
  end.
  - simpl rows. rewrite list_insert_id.
    + by rewrite length_app, length_insert, Nat.add_1_r.
    + apply lookup_app_l_Some. by apply list_lookup_insert_eq.
  - apply lookup_app_l_Some. by apply list_lookup_insert_eq.
  - exact Hp.
Qed.

Lemma extract_introns_again_witness :
  exists h1 t,
    extract_introns 0 [GtfObj (annotation three_exons)]
    = (h1 ++ [IntronsObj t], Ok 1%nat)
    /\ length h1 = 1%nat
    /\ extract_introns 0 (h1 ++ [IntronsObj t])
       = ((h1 ++ [IntronsObj t]) ++ [IntronsObj t], Ok 2%nat).
Proof.
  eapply (extract_introns_again [GtfObj (annotation three_exons)] 0
            (annotation three_exons)).
  - reflexivity.
  - by vm_compute.
Defined.

(** ** [introns_in_brain_regions]: the region table *)

(** X10: matching against two region tables put one after the other
    gives, up to the order of the rows, the rows of matching against
    each of them; with no region at all there is no row. *)
Theorem matched_records_regions_app introns regions1 regions2 :
  matched_records introns (regions1 ++ regions2)
  ≡ₚ matched_records introns regions1 ++ matched_records introns regions2
  /\ matched_records introns [] = [].
Proof.
  rewrite !matched_records_bind. split.
  - induction introns as [|i rest IH]; [done|].
    rewrite !bind_cons, IH, filter_app, fmap_app.
    rewrite <- !app_assoc. apply Permutation_app_head.
    rewrite !app_assoc. apply Permutation_app_tail, Permutation_app_comm.
  - induction introns as [|i rest IH]; [done|].
    by rewrite bind_cons, IH.
Qed.

(** ** The merge *)


(** X12: when the merge succeeds with at least one matched row and the
    known-intron table has no column named like a non-key column of the
    matched table, the header of the result is the header of the
    known-intron table followed by transcript_id, strand and the three
    brain-region columns. *)
Theorem merge_header left m ms t :
  merge left (from_records Matched.keys (m :: ms)) = Ok t ->
  Forall (fun c => c ∉ ["transcript_id"; "strand"; "brain_region_source";
                        "brain_region_start"; "brain_region_end"])
    (columns left) ->
  columns t
  = columns left
    ++ ["transcript_id"; "strand"; "brain_region_source";
        "brain_region_start"; "brain_region_end"].
Proof.
  unfold merge. destruct (List.find _ on_); [done|].
  intros [= <-] Hall. simpl. unfold merged_columns. f_equal.
  - rewrite <- (list_fmap_id (columns left)) at 2.
    apply Forall_fmap_ext. eapply Forall_impl; [exact Hall|].
    intros c Hc. simpl. destruct (bool_decide (c ∈ on_)) eqn:Ekey; [done|].
    rewrite bool_decide_eq_false_2; [done|].
    apply bool_decide_eq_false in Ekey. unfold on_ in Ekey.
    unfold Matched.keys, Intron.keys. simpl. cbv beta in Hc.
    rewrite !elem_of_cons, elem_of_nil in *. tauto.
  - rewrite Forall_forall in Hall. simpl.
    assert (forall c,
              c ∈ ["transcript_id"; "strand"; "brain_region_source";
                   "brain_region_start"; "brain_region_end"] ->
              bool_decide (c ∈ columns left) = false) as Hno.
    { intros c Hc. apply bool_decide_eq_false. intros Hin.
      by apply (Hall c Hin). }
    rewrite !Hno by (rewrite !elem_of_cons; auto 10). done.
Qed.

Lemma merge_header_witness :
  exists t,
    merge known_one
      (from_records Matched.keys
         [matched_row (Intron.mk "T1" "chr1" 101 200 "+")
            (Region.mk "chr1" "hippocampus" 150 250)])
    = Ok t
    /\ columns t
       = ["seqname"; "start"; "end"; "label"; "transcript_id"; "strand";
          "brain_region_source"; "brain_region_start"; "brain_region_end"].
Proof.
  eexists. split; [by vm_compute|].
  apply (merge_header known_one
           (matched_row (Intron.mk "T1" "chr1" 101 200 "+")
              (Region.mk "chr1" "hippocampus" 150 250)) []).
  - by vm_compute.
  - unfold known_one. simpl.
    repeat (apply Forall_cons; split;
              [rewrite !elem_of_cons, elem_of_nil;
               intros [?|[?|[?|[?|[?|[]]]]]]; discriminate|]).
    apply Forall_nil_2.
Defined.

(** ** [main] *)


Lemma main_result gtf_table brain_gtf_table known_introns_table h :
  snd (main gtf_table brain_gtf_table known_introns_table h)
  = pipeline gtf_table brain_gtf_table known_introns_table.
Proof.
  by destruct (main_run gtf_table brain_gtf_table known_introns_table h)
    as [ext ->].
Qed.






Lemma adjacent_introns_bounds tid first sorted :
  Forall (fun i =>
            exists prev next,
              prev ∈ sorted /\ next ∈ sorted
              /\ Intron.start i = Feature.end_ prev + 1
              /\ Intron.end_ i = Feature.start next - 1)
    (adjacent_introns tid first sorted).
Proof.
  induction sorted as [|prev rest IH]; [constructor|].
  destruct rest as [|next rest]; [constructor|].
  cbn [adjacent_introns]. apply Forall_app. split.
  - destruct (Intron.start _ <=? Intron.end_ _); [|constructor].
    repeat constructor. exists prev, next.
    split; [left|]. split; [right; left|done].
  - eapply Forall_impl; [exact IH|].
    intros i (p & n & Hp & Hn & Hi). exists p, n.
    split; [by right|]. split; [by right|done].
Qed.

Lemma transcript_group_elem tid keyed e :
  e ∈ transcript_group tid keyed -> e ∈ snd <$> keyed.
Proof.
  unfold transcript_group.
  intros (kr & -> & Hin)%list_elem_of_fmap.
  apply list_elem_of_In, filter_In in Hin as [Hin _].
  apply list_elem_of_fmap. exists kr. by rewrite list_elem_of_In.
Qed.

(** Every derived intron is a non-empty gap between two exons of the
    table. *)
Lemma intron_records_bounds keyed :
  Forall (fun i =>
            Intron.start i <= Intron.end_ i
            /\ exists prev next,
                 prev ∈ snd <$> keyed /\ next ∈ snd <$> keyed
                 /\ Intron.start i = Feature.end_ prev + 1
                 /\ Intron.end_ i = Feature.start next - 1)
    (intron_records keyed).
Proof.
  rewrite intron_records_bind. apply Forall_bind, Forall_forall.
  intros tid _. unfold compose, group_introns.
  destruct (sort_values_start (transcript_group tid keyed))
    as [|first rest] eqn:E; [constructor|].
  apply Forall_and. split.
  - eapply Forall_impl; [apply adjacent_introns_Forall|]. by intros i (_&_&_&?).
  - eapply Forall_impl; [apply adjacent_introns_bounds|].
    intros i (p & n & Hp & Hn & Hi). exists p, n.
    rewrite <- E, sort_values_start_perm in Hp, Hn.
    split; [by eapply transcript_group_elem|].
    split; [by eapply transcript_group_elem|done].
Qed.

(** X15: every row of the table [main] returns pairs a row of the
    known-intron table with an intron that has the same seqname, start
    and end, is a non-empty gap between the end of one exon row and the
    start of another exon row of the genome annotation, and overlaps,
    on the same seqname, the non-exon row of the region annotation whose
    source, start and end the row reports. *)
Theorem main_rows_sound gtf_table brain_gtf_table known h t :
  snd (main gtf_table brain_gtf_table known h) = Ok t ->
  Forall (fun km =>
            let k := fst km in
            let i := Matched.intron (snd km) in
            k ∈ records known
            /\ Known.seqname k = Intron.seqname i
            /\ Known.start k = Intron.start i
            /\ Known.end_ k = Intron.end_ i
            /\ Known.start k <= Known.end_ k
            /\ (exists prev next,
                  prev ∈ gtf_table /\ is_exon prev = true
                  /\ next ∈ gtf_table /\ is_exon next = true
                  /\ Known.start k = Feature.end_ prev + 1
                  /\ Known.end_ k = Feature.start next - 1)
            /\ (exists r,
                  r ∈ brain_gtf_table /\ is_exon r = false
                  /\ Feature.seqname r = Known.seqname k
                  /\ Matched.brain_region_source (snd km) = Feature.source r
                  /\ Matched.brain_region_start (snd km) = Feature.start r
                  /\ Matched.brain_region_end (snd km) = Feature.end_ r
                  /\ overlaps (Known.start k) (Known.end_ k)
                       (Feature.start r) (Feature.end_ r) = true))
    (records t).
Proof.
  rewrite main_result. unfold pipeline.
  set (exons := List.filter is_exon gtf_table).
  destruct (apply parse_attributes (Feature.attribute <$> exons))
    as [attrs|e] eqn:Hp; [|done].
  set (keyed := zip (get_transcript_id <$> attrs) exons).
  unfold merge. destruct (List.find _ on_); [done|]. intros [= <-]. simpl.
  apply Forall_forall. intros [k m] Hin.
  apply joined_spec in Hin as (Hk & Hm & Hkey).
  apply same_key_spec in Hkey as (Hs & Hst & Hen).
  rewrite matched_records_bind in Hm.
  apply list_elem_of_bind in Hm as (i & Hm & Hi).
  apply list_elem_of_fmap in Hm as (r & -> & Hr).
  apply list_elem_of_filter in Hr as [[Hrs Hro] Hr].
  apply list_elem_of_fmap in Hr as (x & -> & Hx).
  apply list_elem_of_In, filter_In in Hx as [Hx Hxe].
  apply list_elem_of_In in Hx. apply negb_true_iff in Hxe.
  pose proof (intron_records_bounds keyed) as Hb.
  rewrite Forall_forall in Hb.
  destruct (Hb i Hi) as (Hle & p & n & Hp' & Hn' & Hps & Hne).
  assert (forall e, e ∈ snd <$> keyed -> e ∈ gtf_table /\ is_exon e = true)
    as Hex.
  { intros e0 (kr & -> & Hkr)%list_elem_of_fmap. destruct kr as [tid e0].
    apply elem_of_zip_r in Hkr. simpl.
    apply list_elem_of_In, filter_In in Hkr as [? ?].
    by rewrite list_elem_of_In. }
  simpl in *. split; [done|]. split; [done|]. split; [done|]. split; [done|].
  split; [lia|]. split.
  - exists p, n. destruct (Hex p Hp'), (Hex n Hn').
    repeat split; try done; congruence.
  - exists x. repeat split; try done; [congruence|].
    rewrite Hst, Hen. by apply overlaps_max_min.
Qed.

Lemma main_rows_sound_witness :
  exists t,
    snd (main three_exons [region "chr1" "hippocampus" 150 250] known_one [])
    = Ok t
    /\ Forall (fun km =>
                 Known.start (fst km) <= Known.end_ (fst km)
                 /\ Known.seqname (fst km)
                    = Intron.seqname (Matched.intron (snd km)))
         (records t).
Proof.
  eexists. split; [by vm_compute|].
  eapply Forall_impl.
  - apply (main_rows_sound three_exons
             [region "chr1" "hippocampus" 150 250] known_one []).
    by vm_compute.
  - simpl. intros km (_ & Hs & _ & _ & Hle & _). done.
Defined.

(** X16: when the attributes of all exon rows parse but no derived
    intron overlaps any region row, [main] ends with a key error for
    "seqname" for every known-intron table: it returns a table only if
    at least one intron matches a region. *)
Theorem main_needs_a_match gtf_table brain_gtf_table known h attrs :
  apply parse_attributes
    (Feature.attribute <$> List.filter is_exon gtf_table) = Ok attrs ->
  matched_records
    (intron_records
       (zip (get_transcript_id <$> attrs) (List.filter is_exon gtf_table)))
    (region_of
     <$> List.filter (fun e => negb (is_exon e)) brain_gtf_table) = [] ->
  snd (main gtf_table brain_gtf_table known h) = Raise (KeyError "seqname").
Proof.
  intros Hp Hnone. rewrite main_result. unfold pipeline.
  rewrite Hp. cbv zeta. rewrite Hnone.
  unfold merge. simpl. by rewrite andb_false_r.
Qed.

Lemma main_needs_a_match_witness :
  snd (main touching_exons [region "chr1" "hippocampus" 150 250]
         known_one [])
  = Raise (KeyError "seqname").
Proof.
  eapply (main_needs_a_match touching_exons); by vm_compute.
Defined.

(** ** [read_gtf]: lines *)






